(** * PicoRV32 command-line testbench: image loader and simulation driver

    A shallow embedding of [testbench_cli.cc]: the ELF loader
    ([ElfLoader::load]), the argument loop of [main], and the clock/reset
    loop that drives the Verilated model; followed by the properties of
    the specification that are settled against it.

    Conventions of the embedding.
    - [uint32_t], [int] and [unsigned long] values are integers of [Z]; the
      places where the C++ arithmetic wraps are written out ([u32], [s32],
      [u64]).
    - The mapped file and the memory buffer are lists of bytes, read and
      written at byte offsets.  An access that leaves the mapped file or
      the buffer has no defined behaviour in the program; the model reports
      it as [Undefined].
    - The host is little-endian (the loader reads header fields through
      struct pointers into the mapping). *)

From Stdlib Require Import ZArith List String Ascii Bool Lia Sorted.
From stdpp Require Import base list.
Import ListNotations.
Local Open Scope Z_scope.

(** ** Bytes and fixed-width integers *)

Abbreviation byte := Byte.byte.
Abbreviation x00 := Byte.x00.

Definition u8 (b : byte) : Z := Z.of_N (Byte.to_N b).

(** Result of unsigned 32-bit arithmetic. *)
Definition u32 (z : Z) : Z := z mod 2 ^ 32.

(** Result of unsigned 64-bit conversion ([unsigned long] on LP64). *)
Definition u64 (z : Z) : Z := z mod 2 ^ 64.

Definition INT_MAX : Z := 2147483647.

(** Two's-complement result of 32-bit signed ([int]) arithmetic. *)
Definition s32 (z : Z) : Z := (z + 2 ^ 31) mod 2 ^ 32 - 2 ^ 31.

(** ** Byte buffers *)

Definition byte_at (l : list byte) (a : Z) : option byte :=
  if 0 <=? a then l !! Z.to_nat a else None.

(** [n] bytes starting at offset [off], when they all lie inside [l]. *)
Definition read_bytes (l : list byte) (off n : Z) : option (list byte) :=
  if (0 <=? off) && (0 <=? n) && (off + n <=? Z.of_nat (length l))
  then Some (take (Z.to_nat n) (drop (Z.to_nat off) l))
  else None.

(** Overwrite [length data] bytes at [addr], when they all lie inside [m]. *)
Definition write_bytes (m : list byte) (addr : Z) (data : list byte)
  : option (list byte) :=
  if (0 <=? addr) && (addr + Z.of_nat (length data) <=? Z.of_nat (length m))
  then Some (take (Z.to_nat addr) m ++ data
             ++ drop (Z.to_nat addr + length data) m)
  else None.

(** [memset(m + addr, c, n)], when the [n] bytes all lie inside [m]. *)
Definition memset (m : list byte) (addr : Z) (c : byte) (n : Z)
  : option (list byte) :=
  if (0 <=? n) && (addr + n <=? Z.of_nat (length m))
  then write_bytes m addr (replicate (Z.to_nat n) c)
  else None.

(** [memcpy(m + dst, f + src, n)], when source and destination lie inside
    [f] and [m]. *)
Definition memcpy (m : list byte) (dst : Z) (f : list byte) (src n : Z)
  : option (list byte) :=
  match read_bytes f src n with
  | Some data => write_bytes m dst data
  | None => None
  end.

(** [memcmp(a, b, n) == 0] for two buffers of [n] bytes. *)
Fixpoint bytes_eqb (a b : list byte) : bool :=
  match a, b with
  | [], [] => true
  | x :: a', y :: b' => Byte.eqb x y && bytes_eqb a' b'
  | _, _ => false
  end.

(** Little-endian fields. *)
Definition get16 (f : list byte) (off : Z) : option Z :=
  match byte_at f off, byte_at f (off + 1) with
  | Some b0, Some b1 => Some (u8 b0 + 2 ^ 8 * u8 b1)
  | _, _ => None
  end.

Definition get32 (f : list byte) (off : Z) : option Z :=
  match byte_at f off, byte_at f (off + 1),
        byte_at f (off + 2), byte_at f (off + 3) with
  | Some b0, Some b1, Some b2, Some b3 =>
      Some (u8 b0 + 2 ^ 8 * u8 b1 + 2 ^ 16 * u8 b2 + 2 ^ 24 * u8 b3)
  | _, _, _, _ => None
  end.

(** ** Constants of the testbench and of <elf.h> *)

Definition MEM_SIZE : Z := 128 * 1024.

Definition ELFMAG : list byte := [Byte.x7f; Byte.x45; Byte.x4c; Byte.x46].
Definition SELFMAG : Z := 4.
Definition EI_CLASS : Z := 4.
Definition ELFCLASS32 : Z := 1.
Definition EM_RISCV : Z := 243.
Definition PT_LOAD : Z := 1.

(** Field offsets of [Elf32_Ehdr] and [Elf32_Phdr]. *)
Definition OFF_e_machine : Z := 18.
Definition OFF_e_entry : Z := 24.
Definition OFF_e_phoff : Z := 28.
Definition OFF_e_phnum : Z := 44.
Definition SIZEOF_Phdr : Z := 32.
Definition OFF_p_type : Z := 0.
Definition OFF_p_offset : Z := 4.
Definition OFF_p_vaddr : Z := 8.
Definition OFF_p_paddr : Z := 12.
Definition OFF_p_filesz : Z := 16.
Definition OFF_p_memsz : Z := 20.

(** ** ElfLoader::load *)

(** Causes of [return false], one per error message of [load]. *)
Inductive LoadError : Type :=
| CannotOpen
| CannotMmap
| NotElf
| Not32Bit
| SegmentBounds (i load_addr memsz : Z).

(** Lines printed by [load], in program order. *)
Inductive Event : Type :=
| EvError (e : LoadError)                     (* stderr: "Error: ..." *)
| EvWarnMachine (e_machine : Z)               (* stderr: "Warning: ..." *)
| EvLoading                                   (* "Loading ELF file: ..." *)
| EvEntry (e_entry : Z)                       (* "Entry point: ..." *)
| EvSegment (i load_addr memsz filesz : Z)    (* "  Segment ..." *)
| EvLoaded.                                   (* "ELF loaded successfully" *)

Inductive outcome : Type :=
| Returned (r : bool) (log : list Event) (mem : list byte)
| Undefined.

(** The fields of a loadable program header that [load] reads. *)
Record Segment : Type := mkSegment {
  p_paddr : Z;
  p_vaddr : Z;
  p_filesz : Z;
  p_memsz : Z;
  p_offset : Z
}.

(** [(paddr != 0) ? paddr : vaddr] *)
Definition load_addr (s : Segment) : Z :=
  if negb (p_paddr s =? 0) then p_paddr s else p_vaddr s.

Definition read_segment (f : list byte) (base : Z) : option Segment :=
  match get32 f (base + OFF_p_paddr), get32 f (base + OFF_p_vaddr),
        get32 f (base + OFF_p_filesz), get32 f (base + OFF_p_memsz),
        get32 f (base + OFF_p_offset) with
  | Some pa, Some va, Some fsz, Some msz, Some off =>
      Some (mkSegment pa va fsz msz off)
  | _, _, _, _, _ => None
  end.

(** [load_addr >= MEM_SIZE || load_addr + memsz > MEM_SIZE], the sum in
    [uint32_t]. *)
Definition exceeds_bounds (s : Segment) : bool :=
  (MEM_SIZE <=? load_addr s) || (MEM_SIZE <? u32 (load_addr s + p_memsz s)).

(** The copy and the zero fill of one segment that passed the check. *)
Definition place_segment (f : list byte) (s : Segment) (mem : list byte)
  : option (list byte) :=
  match (if 0 <? p_filesz s
         then memcpy mem (load_addr s) f (p_offset s) (p_filesz s)
         else Some mem) with
  | Some mem1 =>
      if p_filesz s <? p_memsz s
      then memset mem1 (load_addr s + p_filesz s) x00 (p_memsz s - p_filesz s)
      else Some mem1
  | None => None
  end.

(** One iteration of the program-header loop. *)
Inductive iteration : Type :=
| Next (log : list Event) (mem : list byte)
| Exit (o : outcome).

Definition load_segment (f : list byte) (e_phoff i : Z)
    (log : list Event) (mem : list byte) : iteration :=
  let base := e_phoff + SIZEOF_Phdr * i in
  match get32 f (base + OFF_p_type) with
  | None => Exit Undefined
  | Some ty =>
      if ty =? PT_LOAD then
        match read_segment f base with
        | None => Exit Undefined
        | Some s =>
            let log1 :=
              log ++ [EvSegment i (load_addr s) (p_memsz s) (p_filesz s)] in
            if exceeds_bounds s then
              Exit (Returned false
                      (log1 ++ [EvError (SegmentBounds i (load_addr s)
                                                       (p_memsz s))])
                      mem)
            else
              match place_segment f s mem with
              | Some mem' => Next log1 mem'
              | None => Exit Undefined
              end
        end
      else Next log mem
  end.

(** [for (int i = ...; i < e_phnum; i++)] with [n] iterations left. *)
Fixpoint load_segments (f : list byte) (e_phoff : Z) (n : nat) (i : Z)
    (log : list Event) (mem : list byte) : outcome :=
  match n with
  | O => Returned true (log ++ [EvLoaded]) mem
  | S n' =>
      match load_segment f e_phoff i log mem with
      | Next log' mem' => load_segments f e_phoff n' (i + 1) log' mem'
      | Exit o => o
      end
  end.

Definition magic_ok (f : list byte) : option bool :=
  match read_bytes f 0 SELFMAG with
  | Some m => Some (bytes_eqb m ELFMAG)
  | None => None
  end.

(** The part of [load] from the [memset] on, with the lines printed so
    far. *)
Definition load_image (f : list byte) (log : list Event)
    (memory : list byte) : outcome :=
  match memset memory 0 x00 MEM_SIZE with
  | None => Undefined
  | Some mem0 =>
      match get32 f OFF_e_entry, get32 f OFF_e_phoff,
            get16 f OFF_e_phnum with
      | Some e_entry, Some e_phoff, Some e_phnum =>
          load_segments f e_phoff (Z.to_nat e_phnum) 0
            (log ++ [EvLoading; EvEntry e_entry]) mem0
      | _, _, _ => Undefined
      end
  end.

(** The part of [load] that follows the magic and class checks. *)
Definition load_checked (f : list byte) (memory : list byte) : outcome :=
  match get16 f OFF_e_machine with
  | None => Undefined
  | Some e_machine =>
      load_image f
        (if negb (e_machine =? EM_RISCV) then [EvWarnMachine e_machine]
         else [])
        memory
  end.

(** [load(filename, memory)]: [file] is what [open] finds under the name
    ([None] when it cannot be opened); [fstat] on the open descriptor
    succeeds; [mmap] fails on an empty file. *)
Definition load (file : option (list byte)) (memory : list byte) : outcome :=
  match file with
  | None => Returned false [EvError CannotOpen] memory
  | Some f =>
      if Z.of_nat (length f) =? 0 then
        Returned false [EvError CannotMmap] memory
      else
        match magic_ok f with
        | None => Undefined
        | Some false => Returned false [EvError NotElf] memory
        | Some true =>
            match byte_at f EI_CLASS with
            | None => Undefined
            | Some c =>
                if negb (u8 c =? ELFCLASS32) then
                  Returned false [EvError Not32Bit] memory
                else load_checked f memory
            end
        end
  end.

(** ** Command line of [main] *)

Local Open Scope string_scope.
Local Open Scope list_scope.
Local Open Scope Z_scope.

Definition char_code (c : ascii) : Z := Z.of_N (N_of_ascii c).

(** [isspace] in the C locale. *)
Definition is_space (c : ascii) : bool :=
  (char_code c =? 32) || ((9 <=? char_code c) && (char_code c <=? 13)).

Definition is_digit (c : ascii) : bool :=
  (48 <=? char_code c) && (char_code c <=? 57).

Fixpoint skip_spaces (s : string) : string :=
  match s with
  | String c s' => if is_space c then skip_spaces s' else s
  | EmptyString => s
  end.

(** Value of the longest run of decimal digits that starts [s], continuing
    the value [acc]. *)
Fixpoint digits_value (acc : Z) (s : string) : Z :=
  match s with
  | String c s' =>
      if is_digit c then digits_value (10 * acc + (char_code c - 48)) s'
      else acc
  | EmptyString => acc
  end.

(** [atoi] of the C library: white space, an optional sign, then decimal
    digits up to the first other character; [0] when there is no digit.
    The C standard defines the result only when it is representable as an
    [int]; the model answers [None] otherwise. *)
Definition atoi (s : string) : option Z :=
  let s1 := skip_spaces s in
  let '(neg, s2) :=
    match s1 with
    | String "-" r => (true, r)
    | String "+" r => (false, r)
    | _ => (false, s1)
    end in
  let v := digits_value 0 s2 in
  let r := if neg : bool then - v else v in
  if (- INT_MAX - 1 <=? r) && (r <=? INT_MAX) then Some r else None.

(** [s + n] on a C string at least [n] characters long. *)
Fixpoint string_skip (n : nat) (s : string) : string :=
  match n, s with
  | S n', String _ s' => string_skip n' s'
  | _, _ => s
  end.

(** [s[0] == c] *)
Definition first_char_is (c : ascii) (s : string) : bool :=
  match s with
  | String c' _ => Ascii.eqb c' c
  | EmptyString => false
  end.

Inductive ArgError : Type :=
| InvalidTimeout
| UnknownOption (a : string)
| MultipleElf
| NoElfFile.

(** The two variables the argument loop assigns. *)
Record Args : Type := mkArgs {
  elf_file : option string;
  timeout_cycles : Z
}.

Definition initial_args : Args := mkArgs None 1000000.

Inductive ArgStep : Type :=
| ArgNext (st : Args)          (* go on with the next argument *)
| ArgUsage                     (* print_usage; return 0 *)
| ArgFail (e : ArgError)       (* error message; return 1 *)
| ArgUndefined.                (* atoi outside its defined range *)

(** Body of the loop over [argv[1..]]. *)
Definition parse_arg (st : Args) (a : string) : ArgStep :=
  if String.eqb a "-h" || String.eqb a "--help" then ArgUsage
  else if String.prefix "--timeout=" a then
    match atoi (string_skip 10 a) with
    | None => ArgUndefined
    | Some v =>
        if v <=? 0 then ArgFail InvalidTimeout
        else ArgNext (mkArgs (elf_file st) v)
    end
  else if first_char_is "+" a then ArgNext st
  else if first_char_is "-" a then ArgFail (UnknownOption a)
  else
    match elf_file st with
    | Some _ => ArgFail MultipleElf
    | None => ArgNext (mkArgs (Some a) (timeout_cycles st))
    end.

Fixpoint parse_args (args : list string) (st : Args) : ArgStep :=
  match args with
  | [] => ArgNext st
  | a :: rest =>
      match parse_arg st a with
      | ArgNext st' => parse_args rest st'
      | stop => stop
      end
  end.

(** [Verilated::commandArgsPlusMatch] of the Verilator runtime: the first
    argument that is a plus sign followed by something starting with
    [prefixp], or the empty string. *)
Definition commandArgsPlusMatch (prefixp : string) (argv : list string)
  : string :=
  match List.find (fun a => first_char_is "+" a
                            && String.prefix prefixp (string_skip 1 a)) argv
  with
  | Some a => a
  | None => ""
  end.

(** [flag && 0 == strcmp(flag, "+name")] *)
Definition plusarg (name : string) (argv : list string) : bool :=
  String.eqb (commandArgsPlusMatch name argv) ("+" ++ name)%string.

(** ** Trace records *)

Definition hex_char (d : Z) : ascii :=
  ascii_of_N (Z.to_N (if d <? 10 then 48 + d else 87 + d)).

(** Hexadecimal digits of [v], most significant first, in front of [acc];
    [fuel] bounds the number of digits. *)
Fixpoint hex_digits (fuel : nat) (v : Z) (acc : string) : string :=
  match fuel with
  | O => acc
  | S k =>
      let acc' := String (hex_char (v mod 16)) acc in
      if v / 16 =? 0 then acc' else hex_digits k (v / 16) acc'
  end.

Fixpoint zeros (n : nat) : string :=
  match n with
  | O => ""
  | S k => String "0" (zeros k)
  end.

(** Precision [n] of an integer conversion: at least [n] digits. *)
Definition zero_pad (n : nat) (s : string) : string :=
  (zeros (n - String.length s) ++ s)%string.

Definition newline : string := String "010" "".

(** [fprintf(trace_fd, "%9.9lx\n", (unsigned long)trace_data)] *)
Definition format_trace (trace_data : Z) : string :=
  (zero_pad 9 (hex_digits 16 (u64 trace_data) "") ++ newline)%string.

Definition is_hex_digit (c : ascii) : bool :=
  is_digit c || ((97 <=? char_code c) && (char_code c <=? 102)).

Fixpoint all_hex (s : string) : bool :=
  match s with
  | String c s' => is_hex_digit c && all_hex s'
  | EmptyString => true
  end.

(** [n] hexadecimal digits followed by a newline. *)
Fixpoint hex_record (n : nat) (s : string) : bool :=
  match n, s with
  | O, _ => String.eqb s newline
  | S k, String c s' => is_hex_digit c && hex_record k s'
  | S _, EmptyString => false
  end.

(** ** The device under test

    The Verilated model, as far as [main] touches it: construction, the
    memory array handed to the loader, [eval] with the two input pins the
    driver owns, the finish flag and the two trace pins.  The trace port
    of the core is 36 bits wide: the model holds [trace_data] in a 64-bit
    word whose upper 28 bits are clear. *)
Class Dut : Type := {
  dut_state : Type;
  dut_new : dut_state;
  dut_memory : dut_state -> list byte;
  dut_set_memory : list byte -> dut_state -> dut_state;
  eval : bool -> bool -> dut_state -> dut_state;
  gotFinish : dut_state -> bool;
  trace_valid : dut_state -> bool;
  trace_data : dut_state -> Z;
  trace_data_width : forall d, 0 <= trace_data d < 2 ^ 36
}.

(** ** Simulation loop *)

Record Config : Type := mkConfig {
  cfg_timeout : Z;       (* timeout_cycles *)
  cfg_vcd : bool;        (* tfp != NULL *)
  cfg_trace : bool;      (* trace_fd != NULL *)
  cfg_verbose : bool
}.

Record Sim {D : Dut} : Type := mkSim {
  clk : bool;
  resetn : bool;
  t : Z;
  cycle : Z;
  top : dut_state;
  vcd_file : list Z;           (* times passed to tfp->dump *)
  trace_file : list string;    (* lines written to trace_fd *)
  progress : list Z            (* cycles printed in verbose mode *)
}.

Arguments mkSim {D} _ _ _ _ _ _ _ _.

Section Driver.
Context {D : Dut}.

Definition initial_sim (d : dut_state) : Sim :=
  mkSim false false 0 0 d [] [] [].

(** Body of the [while] loop. *)
Definition sim_step (cfg : Config) (st : Sim) : Sim :=
  let resetn1 := if 200 <? t st then true else resetn st in
  let clk1 := negb (clk st) in
  let top1 := eval clk1 resetn1 (top st) in
  let vcd1 := if cfg_vcd cfg then vcd_file st ++ [t st] else vcd_file st in
  let trace1 :=
    if cfg_trace cfg && clk1 && resetn1 && trace_valid top1
    then trace_file st ++ [format_trace (trace_data top1)]
    else trace_file st in
  let cycle1 := if clk1 && resetn1 then s32 (cycle st + 1) else cycle st in
  let progress1 :=
    if clk1 && resetn1 && cfg_verbose cfg && (Z.rem cycle1 10000 =? 0)
    then progress st ++ [cycle1] else progress st in
  mkSim clk1 resetn1 (s32 (t st + 5)) cycle1 top1 vcd1 trace1 progress1.

(** [!Verilated::gotFinish() && cycle < timeout_cycles] *)
Definition running (cfg : Config) (st : Sim) : bool :=
  negb (gotFinish (top st)) && (cycle st <? cfg_timeout cfg).

(** The loop, cut after [fuel] iterations ([None]). *)
Fixpoint sim_loop (cfg : Config) (fuel : nat) (st : Sim) : option Sim :=
  if running cfg st then
    match fuel with
    | O => None
    | S k => sim_loop cfg k (sim_step cfg st)
    end
  else Some st.

Inductive Status : Type := FINISHED | TIMEOUT.

(** [if (cycle >= timeout_cycles) timed_out = true;] *)
Definition timed_out (cfg : Config) (st : Sim) : bool :=
  cfg_timeout cfg <=? cycle st.

Definition status (cfg : Config) (st : Sim) : Status :=
  if timed_out cfg st then TIMEOUT else FINISHED.

(** [return timed_out ? 2 : 0;] *)
Definition run_exit_code (cfg : Config) (st : Sim) : Z :=
  if timed_out cfg st then 2 else 0.

(** ** main *)

(** What the process finds outside: the files by name, and whether the
    trace file can be opened for writing. *)
Record Env : Type := mkEnv {
  env_file : string -> option (list byte);
  env_trace_fopen : bool
}.

Inductive MainResult : Type :=
| MainUsage                                   (* return 0, line 162 *)
| MainArgError (e : ArgError)                 (* return 1, before [new] *)
| MainLoadFailed (log : list Event)           (* return 1, line 202 *)
| MainRan (cfg : Config) (final : Sim)        (* line 292 *)
| MainRunning                                 (* loop cut by the fuel *)
| MainUndefined.

Definition exit_code (r : MainResult) : option Z :=
  match r with
  | MainUsage => Some 0
  | MainArgError _ => Some 1
  | MainLoadFailed _ => Some 1
  | MainRan cfg st => Some (run_exit_code cfg st)
  | MainRunning | MainUndefined => None
  end.

(** Whether the run got as far as [new Vpicorv32_wrapper]. *)
Definition model_created (r : MainResult) : bool :=
  match r with
  | MainLoadFailed _ | MainRan _ _ | MainRunning => true
  | MainUsage | MainArgError _ | MainUndefined => false
  end.

(** Iterations after which the loop has ended for a budget [timeout]. *)
Definition loop_bound (timeout : Z) : nat := Z.to_nat (2 * timeout + 42).

Definition main (argv : list string) (env : Env) : MainResult :=
  match parse_args (tail argv) initial_args with
  | ArgUsage => MainUsage
  | ArgFail e => MainArgError e
  | ArgUndefined => MainUndefined
  | ArgNext a =>
      match elf_file a with
      | None => MainArgError NoElfFile
      | Some path =>
          match load (env_file env path) (dut_memory dut_new) with
          | Undefined => MainUndefined
          | Returned false log _ => MainLoadFailed log
          | Returned true _ mem =>
              let cfg :=
                mkConfig (timeout_cycles a)
                         (plusarg "vcd" argv)
                         (plusarg "trace" argv && env_trace_fopen env)
                         (plusarg "verbose" argv) in
              match sim_loop cfg (loop_bound (timeout_cycles a))
                             (initial_sim (dut_set_memory mem dut_new)) with
              | Some st => MainRan cfg st
              | None => MainRunning
              end
          end
      end
  end.

End Driver.

(** ** Vocabulary of the statements about the loader *)

Definition final_log (o : outcome) : list Event :=
  match o with Returned _ log _ => log | Undefined => [] end.

Definition final_memory (o : outcome) : list byte :=
  match o with Returned _ _ mem => mem | Undefined => [] end.

(** [load] returned [true]. *)
Definition succeeded (o : outcome) : bool :=
  match o with Returned true _ _ => true | _ => false end.

(** The same outcome, with [pre] printed first. *)
Definition with_log_prefix (pre : list Event) (o : outcome) : outcome :=
  match o with
  | Returned r log mem => Returned r (pre ++ log) mem
  | Undefined => Undefined
  end.

(** The image is mapped and passes the magic and the class checks. *)
Definition header_ok (f : list byte) : Prop :=
  Z.of_nat (length f) <> 0
  /\ magic_ok f = Some true
  /\ exists c, byte_at f EI_CLASS = Some c /\ u8 c = ELFCLASS32.

(** Entry [i] of the program-header table at [e_phoff] is loadable, with
    the fields [s]. *)
Definition segment_at (f : list byte) (e_phoff i : Z) (s : Segment) : Prop :=
  get32 f (e_phoff + SIZEOF_Phdr * i + OFF_p_type) = Some PT_LOAD
  /\ read_segment f (e_phoff + SIZEOF_Phdr * i) = Some s.

(** [s] is the [i]-th program header of the image [f], and is loadable. *)
Definition loadable (f : list byte) (i : Z) (s : Segment) : Prop :=
  exists e_phoff e_phnum,
    get32 f OFF_e_phoff = Some e_phoff
    /\ get16 f OFF_e_phnum = Some e_phnum
    /\ 0 <= i < e_phnum
    /\ segment_at f e_phoff i s.

(** Destination ranges of a segment: the bytes stored in the file, the
    bytes allocated beyond them, and the whole segment. *)
Definition in_file_part (s : Segment) (a : Z) : Prop :=
  load_addr s <= a < load_addr s + p_filesz s.

Definition in_bss_part (s : Segment) (a : Z) : Prop :=
  load_addr s + p_filesz s <= a < load_addr s + p_memsz s.

Definition in_segment (s : Segment) (a : Z) : Prop :=
  load_addr s <= a < load_addr s + p_memsz s.

(** Among the headers [lo .. hi) of the table at [e_phoff], every loadable
    one stores no more than it allocates, and no two destination ranges
    meet. *)
Definition well_formed_between (f : list byte) (e_phoff lo hi : Z) : Prop :=
  (forall j s, lo <= j < hi -> segment_at f e_phoff j s ->
               p_filesz s <= p_memsz s)
  /\ (forall j1 j2 s1 s2 a,
        lo <= j1 < hi -> lo <= j2 < hi -> j1 <> j2 ->
        segment_at f e_phoff j1 s1 -> segment_at f e_phoff j2 s2 ->
        in_segment s1 a -> ~ in_segment s2 a).

(** A loadable segment that stores no more than it allocates, starts
    below the capacity and ends within it, and whose stored bytes lie
    inside the file. *)
Definition segment_fits (f : list byte) (s : Segment) : Prop :=
  p_filesz s <= p_memsz s
  /\ load_addr s < MEM_SIZE
  /\ load_addr s + p_memsz s <= MEM_SIZE
  /\ p_offset s + p_filesz s <= Z.of_nat (length f).

(** A valid 32-bit image placed within the buffer capacity: the header
    passes the checks, the header fields and every program header lie
    inside the file, and every loadable segment fits. *)
Definition valid_image (f : list byte) : Prop :=
  header_ok f
  /\ exists e_machine e_entry e_phoff e_phnum,
       get16 f OFF_e_machine = Some e_machine
       /\ get32 f OFF_e_entry = Some e_entry
       /\ get32 f OFF_e_phoff = Some e_phoff
       /\ get16 f OFF_e_phnum = Some e_phnum
       /\ forall i, 0 <= i < e_phnum ->
            exists ty,
              get32 f (e_phoff + SIZEOF_Phdr * i + OFF_p_type) = Some ty
              /\ (ty = PT_LOAD ->
                  exists s, read_segment f (e_phoff + SIZEOF_Phdr * i) = Some s
                            /\ segment_fits f s).

(** Two images that agree on every byte outside the [e_machine] field. *)
Definition same_but_machine (f g : list byte) : Prop :=
  length f = length g
  /\ forall a, a <> OFF_e_machine -> a <> OFF_e_machine + 1 ->
               byte_at f a = byte_at g a.

(** The two bytes of the [e_machine] field are read as that field only:
    the program-header table and the stored bytes of every loadable
    segment start behind them. *)
Definition machine_field_apart (f : list byte) : Prop :=
  (forall e_phoff, get32 f OFF_e_phoff = Some e_phoff ->
                   OFF_e_machine + 2 <= e_phoff)
  /\ (forall i s, loadable f i s -> 0 < p_filesz s ->
                  OFF_e_machine + 2 <= p_offset s).

(** ** Vocabulary of the statements about the command line *)

Fixpoint all_digits (s : string) : bool :=
  match s with
  | String c s' => is_digit c && all_digits s'
  | EmptyString => true
  end.

(** Following the specification's words ("must parse as a positive
    integer; non-positive or unparseable is a fatal argument error"): the
    whole of [s] is a decimal numeral, with an optional plus sign, and its
    value is positive. *)
Definition spec_positive_integer (s : string) : bool :=
  let digits :=
    match s with
    | String "+" r => r
    | _ => s
    end in
  negb (String.eqb digits "") && all_digits digits
  && (0 <? digits_value 0 digits).

(** ** Vocabulary of the statements about the simulation loop *)

Section Runs.
Context {D : Dut}.

(** The state after [n] iterations of the loop body. *)
Fixpoint sim_steps (cfg : Config) (n : nat) (st : Sim) : Sim :=
  match n with
  | O => st
  | S k => sim_steps cfg k (sim_step cfg st)
  end.

(** An active edge: clock high with reset deasserted. *)
Definition active_edge (st : Sim) : bool := clk st && resetn st.

(** The records written during [n] iterations from [st], each with the
    cycle count reached on the edge that wrote it. *)
Fixpoint trace_events (cfg : Config) (n : nat) (st : Sim)
  : list (Z * string) :=
  match n with
  | O => []
  | S k =>
      let st' := sim_step cfg st in
      (if cfg_trace cfg && active_edge st' && trace_valid (top st')
       then [(cycle st', format_trace (trace_data (top st')))]
       else [])
      ++ trace_events cfg k st'
  end.

End Runs.

(** ** Sample images and devices

    Builders for small images and a small device, used to run the loader
    and the loop on concrete input. *)

Definition byte_of (z : Z) : byte :=
  match Byte.of_N (Z.to_N (z mod 256)) with
  | Some b => b
  | None => x00
  end.

Definition le16 (z : Z) : list byte := [byte_of z; byte_of (z / 2 ^ 8)].

Definition le32 (z : Z) : list byte :=
  [byte_of z; byte_of (z / 2 ^ 8); byte_of (z / 2 ^ 16); byte_of (z / 2 ^ 24)].

(** An [Elf32_Ehdr] (52 bytes) of class [ei_class]. *)
Definition elf_header (ei_class e_machine e_entry e_phoff e_phnum : Z)
  : list byte :=
  ELFMAG ++ [byte_of ei_class; Byte.x01; Byte.x01] ++ replicate 9 x00
  ++ le16 2 ++ le16 e_machine ++ le32 1 ++ le32 e_entry ++ le32 e_phoff
  ++ le32 0 ++ le32 0 ++ le16 52 ++ le16 32 ++ le16 e_phnum
  ++ le16 40 ++ le16 0 ++ le16 0.

(** An [Elf32_Phdr] (32 bytes). *)
Definition program_header (ty offset vaddr paddr filesz memsz : Z)
  : list byte :=
  le32 ty ++ le32 offset ++ le32 vaddr ++ le32 paddr ++ le32 filesz
  ++ le32 memsz ++ le32 5 ++ le32 4.

(** [EM_ARM] of <elf.h>, for an image that does not declare RISC-V. *)
Definition EM_ARM : Z := 40.

(** A buffer of [MEM_SIZE] bytes that holds something other than zero. *)
Definition stale_memory : list byte := replicate (Z.to_nat MEM_SIZE) Byte.xaa.

(** Text of four bytes at address 0, a note that is not loaded, and a
    segment at 16 with two stored bytes and six more allocated. *)
Definition sample_image (e_machine : Z) : list byte :=
  elf_header 1 e_machine 0 52 3
  ++ program_header 1 148 0 0 4 4
  ++ program_header 4 0 0 0 0 0
  ++ program_header 1 152 16 0 2 8
  ++ [Byte.x13; Byte.x05; Byte.xa0; Byte.x02]
  ++ [Byte.xde; Byte.xad].

(** One segment at address 4 that allocates [2^32 - 4] bytes and stores
    none. *)
Definition wrapping_image : list byte :=
  elf_header 1 EM_RISCV 0 52 1 ++ program_header 1 84 0 4 0 (2 ^ 32 - 4).

(** One empty segment placed at the very end of the buffer. *)
Definition edge_image : list byte :=
  elf_header 1 EM_RISCV 0 52 1 ++ program_header 1 84 0 MEM_SIZE 0 0.

(** A device that counts its evaluations, raises the finish flag from the
    evaluation [finish_at] on (never, for [None]), and shows the low 36
    bits of [pin] on the trace port with the valid pin high. *)
Definition counting_dut (finish_at : option nat) (pin : Z) : Dut := {|
  dut_state := nat;
  dut_new := O;
  dut_memory := fun _ => replicate (Z.to_nat MEM_SIZE) x00;
  dut_set_memory := fun _ d => d;
  eval := fun _ _ d => S d;
  gotFinish := fun d =>
    match finish_at with
    | Some n => (n <=? d)%nat
    | None => false
    end;
  trace_valid := fun _ => true;
  trace_data := fun _ => pin mod 2 ^ 36;
  trace_data_width := fun _ => Z.mod_pos_bound pin (2 ^ 36) eq_refl
|}.

(** ** Further vocabulary and samples for the loader *)

(** The bytes of the buffer that placing [s] writes: the copy of the
    stored bytes and the zero fill behind it. *)
Definition written (s : Segment) (a : Z) : Prop :=
  in_file_part s a \/ in_bss_part s a.

(** Two loadable segments whose destination ranges meet: four bytes at
    address 0, then two bytes at address 2. *)
Definition overlap_image : list byte :=
  elf_header 1 EM_RISCV 0 52 2
  ++ program_header 1 116 0 0 4 4
  ++ program_header 1 120 2 0 2 2
  ++ [Byte.x11; Byte.x22; Byte.x33; Byte.x44]
  ++ [Byte.xee; Byte.xff].

(** A good segment of four bytes followed by one that ends behind the
    capacity. *)
Definition second_segment_out_image : list byte :=
  elf_header 1 EM_RISCV 0 52 2
  ++ program_header 1 116 0 0 4 4
  ++ program_header 1 120 0 (MEM_SIZE - 2) 2 8
  ++ [Byte.x11; Byte.x22; Byte.x33; Byte.x44]
  ++ [Byte.xee; Byte.xff].

(** A segment at the end of the buffer that allocates 4 bytes and stores
    8. *)
Definition long_file_part_image : list byte :=
  elf_header 1 EM_RISCV 0 52 1
  ++ program_header 1 84 0 (MEM_SIZE - 4) 8 4
  ++ replicate 8 Byte.x55.

(** A file that does not start with the ELF magic. *)
Definition text_file : list byte :=
  [Byte.x68; Byte.x65; Byte.x6c; Byte.x6c; Byte.x6f; Byte.x0a].

Definition zero_memory : list byte := replicate (Z.to_nat MEM_SIZE) x00.

(** [load] returned [false]. *)
Definition failed (o : outcome) : bool :=
  match o with Returned false _ _ => true | _ => false end.

(** ** Vocabulary of the statements about the command line *)

(** [-h] or [--help]. *)
Definition is_help (a : string) : bool :=
  String.eqb a "-h" || String.eqb a "--help".

(** An argument that starts with [--timeout=]. *)
Definition is_timeout (a : string) : bool := String.prefix "--timeout=" a.

(** An argument whose first character is neither a plus nor a minus
    sign. *)
Definition positional (a : string) : bool :=
  negb (first_char_is "+" a) && negb (first_char_is "-" a).

(** ** Further vocabulary for the simulation loop *)

Section Observation.
Context {D : Dut}.

(** The variables of the loop that the guard, the device and the summary
    read: everything but the three output files. *)
Definition core (st : Sim) : bool * bool * Z * Z * dut_state :=
  (clk st, resetn st, t st, cycle st, top st).

(** The device after [n] evaluations, the [k]-th of them with the clock
    high for odd [k] and reset released from the 42nd on. *)
Fixpoint driven (n : nat) (d : dut_state) : dut_state :=
  match n with
  | O => d
  | S k => eval (Z.odd (Z.of_nat (S k))) (42 <=? Z.of_nat (S k)) (driven k d)
  end.

End Observation.

(** * Properties *)

(** ** Byte buffers *)

Lemma byte_at_in_range (l : list byte) a :
  0 <= a < Z.of_nat (length l) -> exists b, byte_at l a = Some b.
Proof.
  intros Ha. unfold byte_at. destruct (Z.leb_spec 0 a); [|lia].
  destruct (lookup_lt_is_Some_2 l (Z.to_nat a)) as [b Hb]; [lia|eauto].
Qed.

(** A write changes exactly the bytes of its range. *)
Lemma byte_at_write_bytes m addr data m' a :
  write_bytes m addr data = Some m' ->
  byte_at m' a =
    if (addr <=? a) && (a <? addr + Z.of_nat (length data))
    then byte_at data (a - addr) else byte_at m a.
Proof.
  unfold write_bytes.
  destruct (Z.leb_spec 0 addr) as [Haddr|]; simpl; [|discriminate].
  destruct (Z.leb_spec (addr + Z.of_nat (length data)) (Z.of_nat (length m)))
    as [Hfit|]; [|discriminate].
  intros [= <-]. unfold byte_at.
  destruct (Z.leb_spec 0 a) as [Ha|Ha].
  - destruct (Z.leb_spec addr a) as [Hlo|Hlo]; simpl.
    + destruct (Z.ltb_spec a (addr + Z.of_nat (length data))) as [Hhi|Hhi].
      * destruct (Z.leb_spec 0 (a - addr)); [|lia].
        rewrite lookup_app_r by (rewrite length_take; lia).
        rewrite lookup_app_l by (rewrite length_take; lia).
        f_equal. rewrite length_take. lia.
      * rewrite lookup_app_r by (rewrite length_take; lia).
        rewrite lookup_app_r by (rewrite length_take; lia).
        rewrite lookup_drop. f_equal. rewrite length_take. lia.
    + rewrite lookup_app_l by (rewrite length_take; lia).
      apply lookup_take_lt. lia.
  - destruct (Z.leb_spec addr a); simpl; [lia|reflexivity].
Qed.

Lemma read_bytes_length f off n data :
  read_bytes f off n = Some data -> Z.of_nat (length data) = n.
Proof.
  unfold read_bytes.
  destruct (Z.leb_spec 0 off); simpl; [|discriminate].
  destruct (Z.leb_spec 0 n); simpl; [|discriminate].
  destruct (Z.leb_spec (off + n) (Z.of_nat (length f))); [|discriminate].
  intros [= <-]. rewrite length_take, length_drop. lia.
Qed.

Lemma read_bytes_in_file f off n data :
  read_bytes f off n = Some data ->
  0 <= off /\ 0 <= n /\ off + n <= Z.of_nat (length f).
Proof.
  unfold read_bytes.
  destruct (Z.leb_spec 0 off); simpl; [|discriminate].
  destruct (Z.leb_spec 0 n); simpl; [|discriminate].
  destruct (Z.leb_spec (off + n) (Z.of_nat (length f))); [|discriminate].
  intros _. lia.
Qed.

Lemma byte_at_read_bytes f off n data k :
  read_bytes f off n = Some data -> 0 <= k < n ->
  byte_at data k = byte_at f (off + k).
Proof.
  intros Hr Hk.
  pose proof (read_bytes_in_file _ _ _ _ Hr) as (Hoff & Hn & Hfit).
  revert Hr. unfold read_bytes.
  destruct (Z.leb_spec 0 off); simpl; [|discriminate].
  destruct (Z.leb_spec 0 n); simpl; [|discriminate].
  destruct (Z.leb_spec (off + n) (Z.of_nat (length f))); [|discriminate].
  intros [= <-]. unfold byte_at.
  destruct (Z.leb_spec 0 k); [|lia].
  destruct (Z.leb_spec 0 (off + k)); [|lia].
  rewrite lookup_take_lt by lia. rewrite lookup_drop. f_equal. lia.
Qed.

Lemma byte_at_replicate n (c : byte) k :
  0 <= k < Z.of_nat n -> byte_at (replicate n c) k = Some c.
Proof.
  intros Hk. unfold byte_at. destruct (Z.leb_spec 0 k); [|lia].
  apply lookup_replicate_2. lia.
Qed.

Lemma byte_at_memset m addr c n m' a :
  memset m addr c n = Some m' ->
  byte_at m' a =
    if (addr <=? a) && (a <? addr + n) then Some c else byte_at m a.
Proof.
  unfold memset. destruct (Z.leb_spec 0 n) as [Hn|]; [|discriminate]. simpl.
  destruct (addr + n <=? Z.of_nat (length m)); [|discriminate].
  intros Hw. rewrite (byte_at_write_bytes _ _ _ _ a Hw).
  rewrite length_replicate, Z2Nat.id by lia.
  destruct (Z.leb_spec addr a); simpl; [|reflexivity].
  destruct (Z.ltb_spec a (addr + n)); [|reflexivity].
  apply byte_at_replicate. lia.
Qed.

Lemma byte_at_memcpy m dst f src n m' a :
  memcpy m dst f src n = Some m' ->
  byte_at m' a =
    if (dst <=? a) && (a <? dst + n) then byte_at f (src + (a - dst))
    else byte_at m a.
Proof.
  unfold memcpy.
  destruct (read_bytes f src n) as [data|] eqn:Hr; [|discriminate].
  intros Hw. rewrite (byte_at_write_bytes _ _ _ _ a Hw).
  rewrite (read_bytes_length _ _ _ _ Hr).
  destruct (Z.leb_spec dst a); simpl; [|reflexivity].
  destruct (Z.ltb_spec a (dst + n)); [|reflexivity].
  apply (byte_at_read_bytes _ _ _ _ _ Hr). lia.
Qed.

Lemma memcpy_in_file m dst f src n m' :
  memcpy m dst f src n = Some m' ->
  0 <= src /\ 0 <= n /\ src + n <= Z.of_nat (length f).
Proof.
  unfold memcpy. destruct (read_bytes f src n) eqn:Hr; [|discriminate].
  intros _. eapply read_bytes_in_file; eauto.
Qed.

(** ** Header fields *)

Lemma u8_range b : 0 <= u8 b < 256.
Proof. unfold u8. pose proof (Byte.to_N_bounded b). lia. Qed.

Lemma get16_range f off v : get16 f off = Some v -> 0 <= v < 2 ^ 16.
Proof.
  unfold get16.
  destruct (byte_at f off) as [b0|]; [|discriminate].
  destruct (byte_at f (off + 1)) as [b1|]; [|discriminate].
  intros [= <-]. pose proof (u8_range b0). pose proof (u8_range b1). lia.
Qed.

Lemma get32_range f off v : get32 f off = Some v -> 0 <= v < 2 ^ 32.
Proof.
  unfold get32.
  destruct (byte_at f off) as [b0|]; [|discriminate].
  destruct (byte_at f (off + 1)) as [b1|]; [|discriminate].
  destruct (byte_at f (off + 2)) as [b2|]; [|discriminate].
  destruct (byte_at f (off + 3)) as [b3|]; [|discriminate].
  intros [= <-].
  pose proof (u8_range b0). pose proof (u8_range b1).
  pose proof (u8_range b2). pose proof (u8_range b3). lia.
Qed.

(** The fields of a program header are [uint32_t] values. *)
Lemma read_segment_range f base s :
  read_segment f base = Some s ->
  0 <= p_paddr s < 2 ^ 32 /\ 0 <= p_vaddr s < 2 ^ 32
  /\ 0 <= p_filesz s < 2 ^ 32 /\ 0 <= p_memsz s < 2 ^ 32
  /\ 0 <= p_offset s < 2 ^ 32.
Proof.
  unfold read_segment.
  destruct (get32 f (base + OFF_p_paddr)) as [pa|] eqn:H1; [|discriminate].
  destruct (get32 f (base + OFF_p_vaddr)) as [va|] eqn:H2; [|discriminate].
  destruct (get32 f (base + OFF_p_filesz)) as [fsz|] eqn:H3; [|discriminate].
  destruct (get32 f (base + OFF_p_memsz)) as [msz|] eqn:H4; [|discriminate].
  destruct (get32 f (base + OFF_p_offset)) as [ofs|] eqn:H5; [|discriminate].
  intros [= <-]. simpl.
  apply get32_range in H1, H2, H3, H4, H5. lia.
Qed.

Lemma load_addr_range f base s :
  read_segment f base = Some s -> 0 <= load_addr s < 2 ^ 32.
Proof.
  intros Hs. apply read_segment_range in Hs. unfold load_addr.
  destruct (negb _); lia.
Qed.

(** ** One segment *)

Lemma place_segment_file_part f s mem mem' a :
  place_segment f s mem = Some mem' -> in_file_part s a ->
  exists b, byte_at f (p_offset s + (a - load_addr s)) = Some b
            /\ byte_at mem' a = Some b.
Proof.
  unfold place_segment, in_file_part. intros Hp Ha.
  destruct (Z.ltb_spec 0 (p_filesz s)); [|lia].
  destruct (memcpy _ _ _ _ _) as [mem1|] eqn:Hc; [|discriminate].
  pose proof (memcpy_in_file _ _ _ _ _ _ Hc) as (Hoff & _ & Hfit).
  destruct (byte_at_in_range f (p_offset s + (a - load_addr s))) as [b Hb];
    [lia|].
  exists b. split; [exact Hb|].
  assert (Hm1 : byte_at mem1 a = Some b).
  { rewrite (byte_at_memcpy _ _ _ _ _ _ a Hc).
    destruct (Z.leb_spec (load_addr s) a); [|lia].
    destruct (Z.ltb_spec a (load_addr s + p_filesz s)); [|lia]. exact Hb. }
  destruct (Z.ltb_spec (p_filesz s) (p_memsz s)).
  - rewrite (byte_at_memset _ _ _ _ _ a Hp).
    destruct (Z.leb_spec (load_addr s + p_filesz s) a); [lia|]. exact Hm1.
  - injection Hp as <-. exact Hm1.
Qed.

Lemma place_segment_bss_part f s mem mem' a :
  place_segment f s mem = Some mem' -> in_bss_part s a ->
  byte_at mem' a = Some x00.
Proof.
  unfold place_segment, in_bss_part. intros Hp Ha.
  destruct (if 0 <? p_filesz s then _ else _) as [mem1|]; [|discriminate].
  destruct (Z.ltb_spec (p_filesz s) (p_memsz s)); [|lia].
  rewrite (byte_at_memset _ _ _ _ _ a Hp).
  destruct (Z.leb_spec (load_addr s + p_filesz s) a); [|lia].
  destruct (Z.ltb_spec a (load_addr s + p_filesz s + (p_memsz s - p_filesz s)));
    [reflexivity|lia].
Qed.

Lemma place_segment_outside f s mem mem' a :
  place_segment f s mem = Some mem' ->
  ~ in_file_part s a -> ~ in_bss_part s a ->
  byte_at mem' a = byte_at mem a.
Proof.
  unfold place_segment, in_file_part, in_bss_part. intros Hp Hf Hb.
  assert (Hm1 : forall mem1,
    (if 0 <? p_filesz s
     then memcpy mem (load_addr s) f (p_offset s) (p_filesz s)
     else Some mem) = Some mem1 -> byte_at mem1 a = byte_at mem a).
  { intros mem1 Hc. destruct (Z.ltb_spec 0 (p_filesz s)).
    - rewrite (byte_at_memcpy _ _ _ _ _ _ a Hc).
      destruct (Z.leb_spec (load_addr s) a); [|reflexivity].
      destruct (Z.ltb_spec a (load_addr s + p_filesz s)); [lia|reflexivity].
    - injection Hc as <-. reflexivity. }
  destruct (if 0 <? p_filesz s then _ else _) as [mem1|]; [|discriminate].
  specialize (Hm1 mem1 eq_refl).
  destruct (Z.ltb_spec (p_filesz s) (p_memsz s)).
  - rewrite (byte_at_memset _ _ _ _ _ a Hp).
    destruct (Z.leb_spec (load_addr s + p_filesz s) a); [|exact Hm1].
    destruct (Z.ltb_spec a (load_addr s + p_filesz s
                            + (p_memsz s - p_filesz s))); [lia|exact Hm1].
  - injection Hp as <-. exact Hm1.
Qed.

(** ** One iteration of the program-header loop *)

Lemma segment_at_inj f e_phoff i s1 s2 :
  segment_at f e_phoff i s1 -> segment_at f e_phoff i s2 -> s1 = s2.
Proof. intros [_ H1] [_ H2]. congruence. Qed.

(** An iteration that lets the loop go on either skipped a header that is
    not loadable, or placed a loadable segment that passed the check. *)
Lemma load_segment_Next f e_phoff i log mem log' mem' :
  load_segment f e_phoff i log mem = Next log' mem' ->
  (mem' = mem /\ forall s, ~ segment_at f e_phoff i s)
  \/ (exists s, segment_at f e_phoff i s
                /\ exceeds_bounds s = false
                /\ place_segment f s mem = Some mem').
Proof.
  unfold load_segment, segment_at.
  destruct (get32 f _) as [ty|] eqn:Hty; [|discriminate].
  destruct (Z.eqb_spec ty PT_LOAD) as [->|Hne].
  - destruct (read_segment f _) as [s|] eqn:Hs; [|discriminate].
    destruct (exceeds_bounds s) eqn:Hb; [discriminate|].
    destruct (place_segment f s mem) as [m|] eqn:Hp; [|discriminate].
    intros [= <- <-]. right. exists s. auto.
  - intros [= <- <-]. left. split; [reflexivity|].
    intros s [Hty' _]. congruence.
Qed.

Lemma load_segment_Exit f e_phoff i log mem o :
  load_segment f e_phoff i log mem = Exit o ->
  o = Undefined \/ exists log', o = Returned false log' mem.
Proof.
  unfold load_segment.
  destruct (get32 f _) as [ty|]; [|intros [= <-]; auto].
  destruct (ty =? PT_LOAD); [|discriminate].
  destruct (read_segment f _) as [s|]; [|intros [= <-]; auto].
  destruct (exceeds_bounds s).
  - intros [= <-]. right. eauto.
  - destruct (place_segment f s mem); [discriminate|intros [= <-]; auto].
Qed.

(** ** The program-header loop *)

Section SegmentLoop.
Variables (f : list byte) (e_phoff : Z).

Lemma well_formed_between_tail lo hi :
  well_formed_between f e_phoff lo hi ->
  well_formed_between f e_phoff (lo + 1) hi.
Proof.
  intros [Hsz Hdis]. split.
  - intros j s Hj. apply Hsz. lia.
  - intros j1 j2 s1 s2 a Hj1 Hj2. apply Hdis; lia.
Qed.

Lemma load_segments_memory n :
  forall i log mem log' mem',
    load_segments f e_phoff n i log mem = Returned true log' mem' ->
    well_formed_between f e_phoff i (i + Z.of_nat n) ->
    forall a,
      (forall j s, i <= j < i + Z.of_nat n -> segment_at f e_phoff j s ->
         in_file_part s a ->
         exists b, byte_at f (p_offset s + (a - load_addr s)) = Some b
                   /\ byte_at mem' a = Some b)
      /\ (forall j s, i <= j < i + Z.of_nat n -> segment_at f e_phoff j s ->
            in_bss_part s a -> byte_at mem' a = Some x00)
      /\ ((forall j s, i <= j < i + Z.of_nat n -> segment_at f e_phoff j s ->
             ~ in_segment s a) ->
          byte_at mem' a = byte_at mem a).
Proof.
  induction n as [|n IH]; intros i log mem log' mem' Hrun Hwf a.
  - simpl in Hrun. injection Hrun as _ <-.
    repeat split; intros; try lia; reflexivity.
  - simpl in Hrun.
    destruct (load_segment f e_phoff i log mem) as [log1 mem1|o] eqn:Hstep.
    2:{ apply load_segment_Exit in Hstep as [->|[l ->]]; discriminate. }
    assert (Hwf' : well_formed_between f e_phoff (i + 1) (i + 1 + Z.of_nat n)).
    { replace (i + 1 + Z.of_nat n) with (i + Z.of_nat (S n)) by lia.
      apply well_formed_between_tail, Hwf. }
    destruct (IH _ _ _ _ _ Hrun Hwf' a) as (IHf & IHb & IHo).
    destruct Hwf as [Hsz Hdis].
    (* what the later iterations leave alone, for an address of segment [i] *)
    assert (Hlater : forall s, segment_at f e_phoff i s -> in_segment s a ->
              byte_at mem' a = byte_at mem1 a).
    { intros s Hs Ha. apply IHo. intros j s' Hj Hs'.
      apply (Hdis i j s s' a); try lia; assumption. }
    apply load_segment_Next in Hstep as [[-> Hnone]|(s0 & Hs0 & _ & Hplace)].
    + (* header [i] is not loadable *)
      repeat split.
      * intros j s Hj Hs. destruct (Z.eq_dec j i) as [->|].
        { destruct (Hnone _ Hs). }
        apply (IHf j s); [lia|assumption].
      * intros j s Hj Hs. destruct (Z.eq_dec j i) as [->|].
        { destruct (Hnone _ Hs). }
        apply (IHb j s); [lia|assumption].
      * intros Hout. apply IHo. intros j s Hj. apply Hout. lia.
    + (* header [i] is the loadable segment [s0] *)
      pose proof (Hsz i s0 ltac:(lia) Hs0) as Hle.
      pose proof (read_segment_range _ _ _ (proj2 Hs0)) as Hrange.
      repeat split.
      * intros j s Hj Hs Ha. destruct (Z.eq_dec j i) as [->|].
        { rewrite (segment_at_inj _ _ _ _ _ Hs Hs0) in *.
          rewrite (Hlater s0 Hs0)
            by (unfold in_segment, in_file_part in *; lia).
          eapply place_segment_file_part; eauto. }
        apply (IHf j s); [lia|assumption|assumption].
      * intros j s Hj Hs Ha. destruct (Z.eq_dec j i) as [->|].
        { rewrite (segment_at_inj _ _ _ _ _ Hs Hs0) in *.
          rewrite (Hlater s0 Hs0) by (unfold in_segment, in_bss_part in *; lia).
          eapply place_segment_bss_part; eauto. }
        apply (IHb j s); [lia|assumption|assumption].
      * intros Hout. rewrite IHo by (intros j s Hj; apply Hout; lia).
        pose proof (Hout i s0 ltac:(lia) Hs0) as Hnot.
        apply (place_segment_outside _ _ _ _ _ Hplace);
          unfold in_segment, in_file_part, in_bss_part in *; lia.
Qed.

End SegmentLoop.

(** ** The whole of [load] *)

Lemma load_success f memory log mem' :
  load (Some f) memory = Returned true log mem' ->
  exists mem0 e_phoff e_phnum log0,
    memset memory 0 x00 MEM_SIZE = Some mem0
    /\ get32 f OFF_e_phoff = Some e_phoff
    /\ get16 f OFF_e_phnum = Some e_phnum
    /\ load_segments f e_phoff (Z.to_nat e_phnum) 0 log0 mem0
       = Returned true log mem'.
Proof.
  unfold load, load_checked, load_image.
  destruct (Z.of_nat (length f) =? 0); [discriminate|].
  destruct (magic_ok f) as [[|]|]; try discriminate.
  destruct (byte_at f EI_CLASS) as [c|]; [|discriminate].
  destruct (negb (u8 c =? ELFCLASS32)); [discriminate|].
  destruct (get16 f OFF_e_machine) as [m|]; [|discriminate].
  destruct (memset memory 0 x00 MEM_SIZE) as [mem0|]; [|discriminate].
  destruct (get32 f OFF_e_entry) as [en|]; [|discriminate].
  destruct (get32 f OFF_e_phoff) as [po|]; [|discriminate].
  destruct (get16 f OFF_e_phnum) as [pn|]; [|discriminate].
  intros Hrun. eauto 10.
Qed.

Lemma succeeded_Returned o :
  succeeded o = true -> o = Returned true (final_log o) (final_memory o).
Proof. destruct o as [[|] log mem|]; simpl; congruence. Qed.

Example sample_image_loads :
  match load (Some (sample_image EM_RISCV)) stale_memory with
  | Returned true _ mem =>
      take 24 mem
      = [Byte.x13; Byte.x05; Byte.xa0; Byte.x02] ++ replicate 12 x00
        ++ [Byte.xde; Byte.xad] ++ replicate 6 x00
      /\ byte_at mem 131071 = Some x00
  | _ => False
  end.
Proof. vm_compute. split; reflexivity. Qed.

(** C1.  When [load] returns success on an image whose loadable segments
    store no more than they allocate ([file_size <= memory_size]) and have
    pairwise disjoint destination ranges, then in the buffer: every byte
    of [[load_address, load_address + file_size)] is the corresponding byte
    of the segment's file data, every byte of
    [[load_address + file_size, load_address + memory_size)] is zero, and
    every byte of the buffer outside all loadable segments is zero. *)
Theorem load_places_segments f memory log mem' :
  load (Some f) memory = Returned true log mem' ->
  (forall i s, loadable f i s -> p_filesz s <= p_memsz s) ->
  (forall i j s1 s2 a, i <> j -> loadable f i s1 -> loadable f j s2 ->
     in_segment s1 a -> ~ in_segment s2 a) ->
  (forall i s a, loadable f i s -> in_file_part s a ->
     exists b, byte_at f (p_offset s + (a - load_addr s)) = Some b
               /\ byte_at mem' a = Some b)
  /\ (forall i s a, loadable f i s -> in_bss_part s a ->
        byte_at mem' a = Some x00)
  /\ (forall a, 0 <= a < MEM_SIZE ->
        (forall i s, loadable f i s -> ~ in_segment s a) ->
        byte_at mem' a = Some x00).
Proof.
  intros Hload Hsz Hdis.
  destruct (load_success _ _ _ _ Hload)
    as (mem0 & e_phoff & e_phnum & log0 & Hzero & Hoff & Hnum & Hrun).
  pose proof (get16_range _ _ _ Hnum) as Hn.
  assert (Hin : forall i s, 0 <= i < 0 + Z.of_nat (Z.to_nat e_phnum) ->
            segment_at f e_phoff i s -> loadable f i s).
  { intros i s Hi Hs. exists e_phoff, e_phnum.
    split; [assumption|]. split; [assumption|]. split; [lia|assumption]. }
  assert (Hwf : well_formed_between f e_phoff 0
                  (0 + Z.of_nat (Z.to_nat e_phnum))).
  { split.
    - intros j s Hj Hs. apply (Hsz j s). auto.
    - intros j1 j2 s1 s2 a Hj1 Hj2 Hne Hs1 Hs2.
      apply (Hdis j1 j2 s1 s2 a); auto. }
  repeat split.
  - intros i s a (po & pn & Hpo & Hpn & Hi & Hs) Ha.
    assert (po = e_phoff) by congruence. assert (pn = e_phnum) by congruence.
    subst po pn.
    destruct (load_segments_memory _ _ _ _ _ _ _ _ Hrun Hwf a) as (Hf & _ & _).
    apply (Hf i s); [lia|assumption|assumption].
  - intros i s a (po & pn & Hpo & Hpn & Hi & Hs) Ha.
    assert (po = e_phoff) by congruence. assert (pn = e_phnum) by congruence.
    subst po pn.
    destruct (load_segments_memory _ _ _ _ _ _ _ _ Hrun Hwf a) as (_ & Hb & _).
    apply (Hb i s); [lia|assumption|assumption].
  - intros a Ha Hout.
    destruct (load_segments_memory _ _ _ _ _ _ _ _ Hrun Hwf a) as (_ & _ & Ho).
    rewrite Ho by (intros j s Hj Hs; apply (Hout j s); auto).
    rewrite (byte_at_memset _ _ _ _ _ a Hzero).
    destruct (Z.leb_spec 0 a); [|lia].
    destruct (Z.ltb_spec a (0 + MEM_SIZE)); [reflexivity|lia].
Qed.

Lemma sample_loadable e_machine i s :
  loadable (sample_image e_machine) i s ->
  (i = 0 /\ s = mkSegment 0 0 4 4 148) \/ (i = 2 /\ s = mkSegment 0 16 2 8 152).
Proof.
  intros (po & pn & Hpo & Hpn & Hi & Hty & Hs).
  vm_compute in Hpo. vm_compute in Hpn.
  injection Hpo as <-.
  injection Hpn as <-.
  assert (Hc : i = 0 \/ i = 1 \/ i = 2) by lia.
  destruct Hc as [-> | [-> | ->]].
  - vm_compute in Hs. injection Hs as <-. auto.
  - vm_compute in Hty. discriminate.
  - vm_compute in Hs. injection Hs as <-. auto.
Qed.

Lemma load_places_segments_witness :
  let f := sample_image EM_RISCV in
  let mem' := final_memory (load (Some f) stale_memory) in
  (forall i s a, loadable f i s -> in_file_part s a ->
     exists b, byte_at f (p_offset s + (a - load_addr s)) = Some b
               /\ byte_at mem' a = Some b)
  /\ (forall i s a, loadable f i s -> in_bss_part s a ->
        byte_at mem' a = Some x00)
  /\ (forall a, 0 <= a < MEM_SIZE ->
        (forall i s, loadable f i s -> ~ in_segment s a) ->
        byte_at mem' a = Some x00).
Proof.
  apply (load_places_segments (sample_image EM_RISCV) stale_memory
           (final_log (load (Some (sample_image EM_RISCV)) stale_memory))).
  - apply succeeded_Returned. vm_compute. reflexivity.
  - intros i s Hl.
    destruct (sample_loadable _ i s Hl) as [[-> ->] | [-> ->]]; simpl; lia.
  - intros i j s1 s2 a Hne H1 H2.
    destruct (sample_loadable _ i s1 H1) as [[-> ->] | [-> ->]];
      destruct (sample_loadable _ j s2 H2) as [[-> ->] | [-> ->]];
      unfold in_segment, load_addr; simpl; lia.
Defined.

(** ** The bounds check *)

(** The iteration that reaches a loadable segment failing the check
    returns [false] and leaves the buffer as it found it. *)
Lemma load_segment_rejects f e_phoff i log mem s :
  segment_at f e_phoff i s -> exceeds_bounds s = true ->
  load_segment f e_phoff i log mem
  = Exit (Returned false
            (log ++ [EvSegment i (load_addr s) (p_memsz s) (p_filesz s)]
                 ++ [EvError (SegmentBounds i (load_addr s) (p_memsz s))])
            mem).
Proof.
  intros [Hty Hs] Hb. unfold load_segment.
  rewrite Hty, Z.eqb_refl, Hs, Hb. rewrite <- app_assoc. reflexivity.
Qed.

(** The check rejects every segment whose unbounded sum exceeds the
    capacity, when the sum fits in 32 bits. *)
Lemma exceeds_bounds_no_wrap s :
  0 <= load_addr s -> 0 <= p_memsz s -> load_addr s + p_memsz s < 2 ^ 32 ->
  MEM_SIZE < load_addr s + p_memsz s -> exceeds_bounds s = true.
Proof.
  intros Hla Hms Hfit Hbig. unfold exceeds_bounds, u32.
  rewrite Z.mod_small by lia.
  rewrite orb_true_iff, Z.leb_le, Z.ltb_lt. lia.
Qed.

(** When the 32-bit sum wraps, the check passes for every load address
    inside the buffer. *)
Lemma exceeds_bounds_wrap s :
  0 <= load_addr s < MEM_SIZE -> 0 <= p_memsz s < 2 ^ 32 ->
  2 ^ 32 <= load_addr s + p_memsz s ->
  exceeds_bounds s = false.
Proof.
  intros Hla Hms Hwrap. unfold exceeds_bounds, u32.
  replace ((load_addr s + p_memsz s) mod 2 ^ 32)
    with (load_addr s + p_memsz s - 2 ^ 32).
  - rewrite orb_false_iff, Z.leb_gt, Z.ltb_ge. unfold MEM_SIZE in *. lia.
  - apply Z.mod_unique with (q := 1); unfold MEM_SIZE in *; lia.
Qed.

(** C2.  A loadable segment at address 4 with [memory_size = 2^32 - 4]:
    the unbounded sum [load_address + memory_size] is [2^32], far above
    the capacity, yet the 32-bit sum of the check is 0, the check passes,
    and [load] goes on to zero-fill [2^32 - 4] bytes from address 4
    instead of returning the segment-bounds error. *)
Theorem bounds_check_wraps :
  let s := mkSegment 4 0 0 (2 ^ 32 - 4) 84 in
  loadable wrapping_image 0 s
  /\ MEM_SIZE < load_addr s + p_memsz s
  /\ exceeds_bounds s = false
  /\ place_segment wrapping_image s
       (replicate (Z.to_nat MEM_SIZE) x00) = None
  /\ load (Some wrapping_image) stale_memory = Undefined.
Proof.
  intros s. split; [|split; [|split; [|split]]].
  - exists 52, 1. unfold segment_at.
    split; [|split; [|split; [lia|split]]]; vm_compute; reflexivity.
  - vm_compute. reflexivity.
  - vm_compute. reflexivity.
  - vm_compute. reflexivity.
  - vm_compute. reflexivity.
Qed.

Lemma load_segment_Exit_false f e_phoff i log mem log' mem' :
  load_segment f e_phoff i log mem = Exit (Returned false log' mem') ->
  exists s,
    segment_at f e_phoff i s /\ exceeds_bounds s = true /\ mem' = mem
    /\ log' = log ++ [EvSegment i (load_addr s) (p_memsz s) (p_filesz s)]
                  ++ [EvError (SegmentBounds i (load_addr s) (p_memsz s))].
Proof.
  unfold load_segment, segment_at.
  destruct (get32 f _) as [ty|] eqn:Hty; [|discriminate].
  destruct (Z.eqb_spec ty PT_LOAD) as [->|]; [|discriminate].
  destruct (read_segment f _) as [s|] eqn:Hs; [|discriminate].
  destruct (exceeds_bounds s) eqn:Hb.
  - intros [= <- <-]. exists s. rewrite <- app_assoc. auto.
  - destruct (place_segment f s mem); discriminate.
Qed.

(** If some loadable header of the table fails the check, the loop does
    not complete: it stops with the bounds error of the first such header
    (unless an earlier iteration already left the defined behaviour). *)
Lemma load_segments_rejects f e_phoff n :
  forall i log mem j s,
    i <= j < i + Z.of_nat n ->
    segment_at f e_phoff j s -> exceeds_bounds s = true ->
    load_segments f e_phoff n i log mem = Undefined
    \/ exists j' s' log' mem',
         i <= j' <= j /\ segment_at f e_phoff j' s'
         /\ exceeds_bounds s' = true
         /\ load_segments f e_phoff n i log mem
            = Returned false
                (log' ++ [EvError (SegmentBounds j' (load_addr s')
                                                 (p_memsz s'))])
                mem'.
Proof.
  induction n as [|n IH]; intros i log mem j s Hj Hs Hb; [lia|].
  simpl.
  destruct (load_segment f e_phoff i log mem) as [log1 mem1|o] eqn:Hstep.
  - destruct (Z.eq_dec j i) as [->|Hne].
    + rewrite (load_segment_rejects _ _ _ _ _ _ Hs Hb) in Hstep. discriminate.
    + destruct (IH (i + 1) log1 mem1 j s ltac:(lia) Hs Hb)
        as [Hu|(j' & s' & log' & mem' & Hj' & Hs' & Hb' & Hr)]; [auto|].
      right. exists j', s', log', mem'.
      refine (conj _ (conj Hs' (conj Hb' Hr))). lia.
  - destruct (load_segment_Exit _ _ _ _ _ _ Hstep) as [->|[l ->]]; [auto|].
    destruct (load_segment_Exit_false _ _ _ _ _ _ _ Hstep)
      as (s' & Hs' & Hb' & _ & ->).
    right.
    exists i, s',
      (log ++ [EvSegment i (load_addr s') (p_memsz s') (p_filesz s')]), mem.
    refine (conj _ (conj Hs' (conj Hb' _))); [lia|].
    rewrite <- app_assoc. reflexivity.
Qed.

Lemma load_header_ok f memory :
  header_ok f -> load (Some f) memory = load_checked f memory.
Proof.
  intros (Hlen & Hmagic & c & Hc & Hcls). unfold load.
  destruct (Z.eqb_spec (Z.of_nat (length f)) 0); [contradiction|].
  rewrite Hmagic, Hc, Hcls. reflexivity.
Qed.

(** ** Valid images load *)

Lemma write_bytes_fits m addr data :
  0 <= addr -> addr + Z.of_nat (length data) <= Z.of_nat (length m) ->
  exists m', write_bytes m addr data = Some m' /\ length m' = length m.
Proof.
  intros Ha Hfit. unfold write_bytes.
  destruct (Z.leb_spec 0 addr); [|lia].
  destruct (Z.leb_spec (addr + Z.of_nat (length data)) (Z.of_nat (length m)));
    [|lia].
  simpl. eexists. split; [reflexivity|].
  rewrite !length_app, length_take, length_drop. lia.
Qed.

Lemma memset_fits m addr c n :
  0 <= addr -> 0 <= n -> addr + n <= Z.of_nat (length m) ->
  exists m', memset m addr c n = Some m' /\ length m' = length m.
Proof.
  intros Ha Hn Hfit. unfold memset.
  destruct (Z.leb_spec 0 n); [|lia].
  destruct (Z.leb_spec (addr + n) (Z.of_nat (length m))); [|lia].
  simpl. apply write_bytes_fits; [exact Ha|].
  rewrite length_replicate. lia.
Qed.

Lemma memcpy_fits m dst f src n :
  0 <= dst -> 0 <= src -> 0 <= n ->
  src + n <= Z.of_nat (length f) -> dst + n <= Z.of_nat (length m) ->
  exists m', memcpy m dst f src n = Some m' /\ length m' = length m.
Proof.
  intros Hd Hs Hn Hsrc Hdst. unfold memcpy.
  destruct (read_bytes f src n) as [data|] eqn:Hr.
  - apply write_bytes_fits; [exact Hd|].
    rewrite (read_bytes_length _ _ _ _ Hr). exact Hdst.
  - exfalso. unfold read_bytes in Hr.
    destruct (Z.leb_spec 0 src); [|lia].
    destruct (Z.leb_spec 0 n); [|lia].
    destruct (Z.leb_spec (src + n) (Z.of_nat (length f))); [|lia].
    discriminate.
Qed.

(** A segment that fits is placed, and the buffer keeps its size. *)
Lemma place_segment_fits f base s mem :
  read_segment f base = Some s -> segment_fits f s ->
  MEM_SIZE <= Z.of_nat (length mem) ->
  exceeds_bounds s = false
  /\ exists mem', place_segment f s mem = Some mem'
                  /\ length mem' = length mem.
Proof.
  intros Hs (Hsz & Hla & Hend & Hfile) Hmem.
  pose proof (read_segment_range _ _ _ Hs) as (_ & _ & Hfs & Hms & Hoff).
  pose proof (load_addr_range _ _ _ Hs) as Hrange.
  split.
  - unfold exceeds_bounds, u32.
    rewrite Z.mod_small by (unfold MEM_SIZE in *; lia).
    apply orb_false_iff. split; [apply Z.leb_gt|apply Z.ltb_ge]; lia.
  - unfold place_segment.
    assert (Hcopy : exists mem1,
              (if 0 <? p_filesz s
               then memcpy mem (load_addr s) f (p_offset s) (p_filesz s)
               else Some mem) = Some mem1 /\ length mem1 = length mem).
    { destruct (Z.ltb_spec 0 (p_filesz s)); [|eauto].
      apply memcpy_fits; lia. }
    destruct Hcopy as (mem1 & -> & Hlen1).
    destruct (Z.ltb_spec (p_filesz s) (p_memsz s)); [|eauto].
    destruct (memset_fits mem1 (load_addr s + p_filesz s) x00
                (p_memsz s - p_filesz s)) as (mem2 & Hm2 & Hlen2); try lia.
    exists mem2. split; [exact Hm2|congruence].
Qed.

(** The loop completes on a table whose loadable segments all fit. *)
Lemma load_segments_fits f e_phoff n :
  forall i log mem,
    MEM_SIZE <= Z.of_nat (length mem) ->
    (forall j, i <= j < i + Z.of_nat n ->
       exists ty,
         get32 f (e_phoff + SIZEOF_Phdr * j + OFF_p_type) = Some ty
         /\ (ty = PT_LOAD ->
             exists s, read_segment f (e_phoff + SIZEOF_Phdr * j) = Some s
                       /\ segment_fits f s)) ->
    succeeded (load_segments f e_phoff n i log mem) = true.
Proof.
  induction n as [|n IH]; intros i log mem Hmem Hall; [reflexivity|].
  simpl. destruct (Hall i ltac:(lia)) as (ty & Hty & Hload).
  assert (Hrest : forall j, i + 1 <= j < i + 1 + Z.of_nat n ->
            exists ty,
              get32 f (e_phoff + SIZEOF_Phdr * j + OFF_p_type) = Some ty
              /\ (ty = PT_LOAD ->
                  exists s, read_segment f (e_phoff + SIZEOF_Phdr * j) = Some s
                            /\ segment_fits f s)).
  { intros j Hj. apply Hall. lia. }
  unfold load_segment. rewrite Hty.
  destruct (Z.eqb_spec ty PT_LOAD) as [Heq|Hne].
  - destruct (Hload Heq) as (s & Hs & Hfits). rewrite Hs.
    destruct (place_segment_fits _ _ _ mem Hs Hfits Hmem)
      as (-> & mem' & -> & Hlen).
    apply IH; [rewrite Hlen; exact Hmem|exact Hrest].
  - apply IH; [exact Hmem|exact Hrest].
Qed.

(** X7.  [load] returns success on every valid image placed within a
    buffer of at least [MEM_SIZE] bytes: a header that passes the checks,
    header fields and program headers inside the file, and loadable
    segments that start below the capacity, end within it, store no more
    than they allocate and have their stored bytes inside the file. *)
Lemma valid_image_loads f memory :
  valid_image f -> MEM_SIZE <= Z.of_nat (length memory) ->
  succeeded (load (Some f) memory) = true.
Proof.
  intros (Hok & m & en & po & pn & Hm & Hen & Hpo & Hpn & Hall) Hmem.
  rewrite (load_header_ok _ _ Hok). unfold load_checked, load_image.
  rewrite Hm.
  destruct (memset_fits memory 0 x00 MEM_SIZE) as (mem0 & -> & Hlen);
    [lia|unfold MEM_SIZE; lia|lia|].
  rewrite Hen, Hpo, Hpn.
  apply load_segments_fits; [rewrite Hlen; exact Hmem|].
  intros j Hj. apply Hall. pose proof (get16_range _ _ _ Hpn). lia.
Qed.

(** C9.  A loadable segment whose load address is at or above the
    capacity fails the bounds check whatever its memory size is, zero
    included.  The iteration that reaches it returns [false] with the
    segment-bounds error and leaves the buffer as it is; [load] as a whole
    does not succeed, and where it returns it returns [false] with the
    segment-bounds error of that segment or of an earlier one.  The
    segment with [load_address = MEM_SIZE] and [memory_size = 0] is
    rejected although [load_address + memory_size <= MEM_SIZE]. *)
Theorem high_load_address_rejected f memory i s :
  header_ok f -> loadable f i s -> MEM_SIZE <= load_addr s ->
  exceeds_bounds s = true
  /\ (forall e_phoff log mem,
        get32 f OFF_e_phoff = Some e_phoff ->
        load_segment f e_phoff i log mem
        = Exit (Returned false
                  (log ++ [EvSegment i (load_addr s) (p_memsz s) (p_filesz s)]
                       ++ [EvError (SegmentBounds i (load_addr s) (p_memsz s))])
                  mem))
  /\ (load (Some f) memory = Undefined
      \/ exists j s' log mem,
           0 <= j <= i /\ loadable f j s' /\ exceeds_bounds s' = true
           /\ load (Some f) memory
              = Returned false
                  (log ++ [EvError (SegmentBounds j (load_addr s')
                                                  (p_memsz s'))])
                  mem).
Proof.
  intros Hok (po & pn & Hpo & Hpn & Hi & Hs) Hhigh.
  assert (Hb : exceeds_bounds s = true).
  { unfold exceeds_bounds. apply orb_true_iff. left. apply Z.leb_le, Hhigh. }
  split; [exact Hb|]. split.
  { intros e_phoff log mem He. assert (e_phoff = po) as -> by congruence.
    apply load_segment_rejects; assumption. }
  rewrite (load_header_ok _ _ Hok). unfold load_checked, load_image.
  destruct (get16 f OFF_e_machine) as [m|]; [|auto].
  destruct (memset memory 0 x00 MEM_SIZE) as [mem0|]; [|auto].
  destruct (get32 f OFF_e_entry) as [en|]; [|auto].
  rewrite Hpo, Hpn.
  destruct (load_segments_rejects f po (Z.to_nat pn) 0
              (((if negb (m =? EM_RISCV) then [EvWarnMachine m] else [])
                ++ [EvLoading; EvEntry en])) mem0 i s ltac:(lia) Hs Hb)
    as [Hu|(j & s' & log' & mem' & Hj & Hs' & Hb' & Hr)]; [auto|].
  right. exists j, s', log', mem'.
  refine (conj _ (conj _ (conj Hb' Hr))); [lia|].
  exists po, pn. refine (conj Hpo (conj Hpn (conj _ Hs'))). lia.
Qed.

(** The header checks of a concrete image, by evaluation. *)
Ltac header_ok_by_eval :=
  split; [vm_compute; discriminate
         |split; [vm_compute; reflexivity
                 |exists Byte.x01; split; vm_compute; reflexivity]].

Lemma high_load_address_rejected_witness :
  let s := mkSegment MEM_SIZE 0 0 0 84 in
  (p_memsz s = 0 /\ load_addr s + p_memsz s <= MEM_SIZE)
  /\ exceeds_bounds s = true
  /\ (forall e_phoff log mem,
        get32 edge_image OFF_e_phoff = Some e_phoff ->
        load_segment edge_image e_phoff 0 log mem
        = Exit (Returned false
                  (log ++ [EvSegment 0 (load_addr s) (p_memsz s) (p_filesz s)]
                       ++ [EvError (SegmentBounds 0 (load_addr s) (p_memsz s))])
                  mem))
  /\ (load (Some edge_image) stale_memory = Undefined
      \/ exists j s' log mem,
           0 <= j <= 0 /\ loadable edge_image j s' /\ exceeds_bounds s' = true
           /\ load (Some edge_image) stale_memory
              = Returned false
                  (log ++ [EvError (SegmentBounds j (load_addr s')
                                                  (p_memsz s'))])
                  mem).
Proof.
  intros s. split.
  - split; [reflexivity|]. vm_compute. discriminate.
  - apply (high_load_address_rejected edge_image stale_memory 0 s).
    + header_ok_by_eval.
    + exists 52, 1. unfold segment_at.
      split; [|split; [|split; [lia|split]]]; vm_compute; reflexivity.
    + vm_compute. discriminate.
Defined.

Example edge_image_rejected :
  match load (Some edge_image) stale_memory with
  | Returned false log _ =>
      log = [EvLoading; EvEntry 0; EvSegment 0 MEM_SIZE 0 0;
             EvError (SegmentBounds 0 MEM_SIZE 0)]
  | _ => False
  end.
Proof. vm_compute. reflexivity. Qed.

(** ** The architecture check *)

Lemma load_segment_log_prefix f e_phoff i pre log mem :
  load_segment f e_phoff i (pre ++ log) mem
  = match load_segment f e_phoff i log mem with
    | Next log' mem' => Next (pre ++ log') mem'
    | Exit o => Exit (with_log_prefix pre o)
    end.
Proof.
  unfold load_segment.
  destruct (get32 f _) as [ty|]; [|reflexivity].
  destruct (ty =? PT_LOAD); [|reflexivity].
  destruct (read_segment f _) as [s|]; [|reflexivity].
  destruct (exceeds_bounds s).
  - simpl. rewrite <- !app_assoc. reflexivity.
  - destruct (place_segment f s mem); [|reflexivity].
    rewrite <- app_assoc. reflexivity.
Qed.

(** What was printed before the loop has no effect on it. *)
Lemma load_segments_log_prefix f e_phoff n :
  forall i pre log mem,
    load_segments f e_phoff n i (pre ++ log) mem
    = with_log_prefix pre (load_segments f e_phoff n i log mem).
Proof.
  induction n as [|n IH]; intros i pre log mem; simpl.
  - rewrite <- app_assoc. reflexivity.
  - rewrite load_segment_log_prefix.
    destruct (load_segment f e_phoff i log mem) as [log1 mem1|o];
      [apply IH|reflexivity].
Qed.

(** Reads that stay clear of the machine field see the same bytes in two
    images that differ in that field only. *)
Ltac by_eval := vm_compute; first [reflexivity | discriminate].

Lemma byte_at_agree f g a :
  same_but_machine f g -> a < OFF_e_machine \/ OFF_e_machine + 2 <= a ->
  byte_at f a = byte_at g a.
Proof. intros [_ Hsame] Ha. apply Hsame; unfold OFF_e_machine in *; lia. Qed.

Lemma get16_agree f g off :
  same_but_machine f g ->
  off + 1 < OFF_e_machine \/ OFF_e_machine + 2 <= off ->
  get16 f off = get16 g off.
Proof.
  intros Hsame Hoff. unfold get16.
  rewrite !(byte_at_agree f g) by (assumption || lia). reflexivity.
Qed.

Lemma get32_agree f g off :
  same_but_machine f g ->
  off + 3 < OFF_e_machine \/ OFF_e_machine + 2 <= off ->
  get32 f off = get32 g off.
Proof.
  intros Hsame Hoff. unfold get32.
  rewrite !(byte_at_agree f g) by (assumption || lia). reflexivity.
Qed.

Lemma read_bytes_agree f g off n :
  same_but_machine f g ->
  off + n <= OFF_e_machine \/ OFF_e_machine + 2 <= off ->
  read_bytes f off n = read_bytes g off n.
Proof.
  intros Hsame Hoff. unfold read_bytes. rewrite <- (proj1 Hsame).
  destruct (Z.leb_spec 0 off); simpl; [|reflexivity].
  destruct (Z.leb_spec 0 n); simpl; [|reflexivity].
  destruct (off + n <=? Z.of_nat (length f)); [|reflexivity].
  f_equal. apply list_eq. intros k. rewrite !lookup_take.
  destruct (decide (k < Z.to_nat n)%nat) as [Hk|]; [|reflexivity].
  rewrite !lookup_drop.
  pose proof (byte_at_agree f g (off + Z.of_nat k) Hsame ltac:(lia)) as Hb.
  unfold byte_at in Hb. destruct (Z.leb_spec 0 (off + Z.of_nat k)); [|lia].
  replace (Z.to_nat (off + Z.of_nat k)) with (Z.to_nat off + k)%nat in Hb
    by lia.
  exact Hb.
Qed.

Lemma read_segment_agree f g base :
  same_but_machine f g -> OFF_e_machine + 2 <= base ->
  read_segment f base = read_segment g base.
Proof.
  intros Hsame Hbase. unfold read_segment.
  rewrite !(get32_agree f g)
    by (assumption
        || (unfold OFF_p_paddr, OFF_p_vaddr, OFF_p_filesz, OFF_p_memsz,
              OFF_p_offset; lia)).
  reflexivity.
Qed.

Lemma header_ok_agree f g :
  same_but_machine f g -> header_ok f -> header_ok g.
Proof.
  intros Hsame (Hlen & Hmagic & c & Hc & Hcls). split; [|split].
  - rewrite <- (proj1 Hsame). exact Hlen.
  - unfold magic_ok in *.
    rewrite <- (read_bytes_agree f g) by (assumption || (left; by_eval)).
    exact Hmagic.
  - exists c. split; [|exact Hcls].
    rewrite <- (byte_at_agree f g) by (assumption || (left; by_eval)).
    exact Hc.
Qed.

Lemma load_segments_agree f g e_phoff e_phnum n :
  same_but_machine f g -> machine_field_apart f ->
  get32 f OFF_e_phoff = Some e_phoff -> get16 f OFF_e_phnum = Some e_phnum ->
  forall i log mem,
    0 <= i -> i + Z.of_nat n <= e_phnum ->
    load_segments f e_phoff n i log mem = load_segments g e_phoff n i log mem.
Proof.
  intros Hsame [Htable Hdata] Hpo Hpn.
  pose proof (Htable _ Hpo) as Hbase.
  induction n as [|n IH]; intros i log mem Hi Hn; [reflexivity|].
  simpl.
  assert (Hstep : load_segment f e_phoff i log mem
                  = load_segment g e_phoff i log mem).
  { unfold load_segment, SIZEOF_Phdr, OFF_p_type.
    rewrite <- (get32_agree f g) by (assumption || lia).
    destruct (get32 f (e_phoff + 32 * i + 0)) as [ty|] eqn:Hty; [|reflexivity].
    destruct (Z.eqb_spec ty PT_LOAD) as [->|]; [|reflexivity].
    rewrite <- (read_segment_agree f g) by (assumption || lia).
    destruct (read_segment f (e_phoff + 32 * i)) as [s|] eqn:Hs; [|reflexivity].
    destruct (exceeds_bounds s); [reflexivity|].
    replace (place_segment g s mem) with (place_segment f s mem);
      [reflexivity|].
    unfold place_segment, memcpy.
    destruct (Z.ltb_spec 0 (p_filesz s)) as [Hpos|]; [|reflexivity].
    rewrite (read_bytes_agree f g); [reflexivity|exact Hsame|].
    right. apply (Hdata i s); [|exact Hpos].
    exists e_phoff, e_phnum. unfold segment_at, SIZEOF_Phdr, OFF_p_type.
    refine (conj Hpo (conj Hpn (conj _ (conj Hty Hs)))). lia. }
  rewrite Hstep.
  destruct (load_segment g e_phoff i log mem) as [log1 mem1|o];
    [|reflexivity].
  apply IH; lia.
Qed.

(** C8.  For an image that passes the magic and the class checks, the
    declared architecture has one effect only: when it is not RISC-V the
    warning is printed first.  The return value, the buffer and every
    other line are those of the load from the [memset] on, which does not
    look at the field; and they are those of loading the image that
    declares RISC-V and is otherwise the same, when the two bytes of the
    field are not also read as part of a program header or of segment
    data.  The check never makes [load] fail. *)
Theorem machine_mismatch_only_warns f memory e_machine :
  header_ok f -> get16 f OFF_e_machine = Some e_machine ->
  let warning :=
    if e_machine =? EM_RISCV then [] else [EvWarnMachine e_machine] in
  load (Some f) memory = with_log_prefix warning (load_image f [] memory)
  /\ (forall g,
        same_but_machine f g -> machine_field_apart f ->
        get16 g OFF_e_machine = Some EM_RISCV ->
        load (Some f) memory = with_log_prefix warning (load (Some g) memory)).
Proof.
  intros Hok Hm warning.
  assert (Hsplit : forall h m,
            header_ok h -> get16 h OFF_e_machine = Some m ->
            load (Some h) memory
            = with_log_prefix
                (if m =? EM_RISCV then [] else [EvWarnMachine m])
                (load_image h [] memory)).
  { intros h m Hokh Hmh. rewrite (load_header_ok _ _ Hokh).
    unfold load_checked, load_image. rewrite Hmh.
    destruct (memset memory 0 x00 MEM_SIZE) as [mem0|]; [|reflexivity].
    destruct (get32 h OFF_e_entry) as [en|]; [|reflexivity].
    destruct (get32 h OFF_e_phoff) as [po|]; [|reflexivity].
    destruct (get16 h OFF_e_phnum) as [pn|]; [|reflexivity].
    rewrite <- load_segments_log_prefix.
    destruct (m =? EM_RISCV); reflexivity. }
  split; [apply Hsplit; assumption|].
  intros g Hsame Hapart Hg.
  rewrite (Hsplit f e_machine Hok Hm).
  rewrite (Hsplit g EM_RISCV (header_ok_agree _ _ Hsame Hok) Hg).
  rewrite Z.eqb_refl. f_equal.
  assert (Hsame_image : load_image f [] memory = load_image g [] memory).
  { unfold load_image.
    destruct (memset memory 0 x00 MEM_SIZE) as [mem0|]; [|reflexivity].
    rewrite <- (get32_agree f g OFF_e_entry)
      by (assumption || (right; by_eval)).
    rewrite <- (get32_agree f g OFF_e_phoff)
      by (assumption || (right; by_eval)).
    rewrite <- (get16_agree f g OFF_e_phnum)
      by (assumption || (right; by_eval)).
    destruct (get32 f OFF_e_entry) as [en|]; [|reflexivity].
    destruct (get32 f OFF_e_phoff) as [po|] eqn:Hpo; [|reflexivity].
    destruct (get16 f OFF_e_phnum) as [pn|] eqn:Hpn; [|reflexivity].
    pose proof (get16_range _ _ _ Hpn).
    apply (load_segments_agree f g po pn); try assumption; lia. }
  rewrite <- Hsame_image.
  destruct (load_image f [] memory); reflexivity.
Qed.

Lemma sample_image_same_but_machine m1 m2 :
  same_but_machine (sample_image m1) (sample_image m2).
Proof.
  split; [reflexivity|]. intros a H18 H19. unfold byte_at.
  destruct (Z.leb_spec 0 a); [|reflexivity].
  unfold OFF_e_machine in *.
  remember (Z.to_nat a) as n eqn:Hn.
  do 18 (destruct n as [|n]; [reflexivity|]).
  destruct n as [|n]; [lia|]. destruct n as [|n]; [lia|]. reflexivity.
Qed.

Lemma sample_image_machine_field_apart m :
  machine_field_apart (sample_image m).
Proof.
  split.
  - intros po Hpo. vm_compute in Hpo. injection Hpo as <-. by_eval.
  - intros i s Hl _.
    destruct (sample_loadable _ i s Hl) as [[-> ->] | [-> ->]]; by_eval.
Qed.

Lemma machine_mismatch_only_warns_witness :
  let f := sample_image EM_ARM in
  let g := sample_image EM_RISCV in
  load (Some f) stale_memory
  = with_log_prefix [EvWarnMachine EM_ARM] (load_image f [] stale_memory)
  /\ load (Some f) stale_memory
     = with_log_prefix [EvWarnMachine EM_ARM] (load (Some g) stale_memory).
Proof.
  intros f g.
  destruct (machine_mismatch_only_warns f stale_memory EM_ARM)
    as [Hsplit Htwin].
  - header_ok_by_eval.
  - vm_compute. reflexivity.
  - split; [exact Hsplit|]. apply (Htwin g).
    + apply sample_image_same_but_machine.
    + apply sample_image_machine_field_apart.
    + vm_compute. reflexivity.
Defined.

Example arm_image_loads :
  match load (Some (sample_image EM_ARM)) stale_memory with
  | Returned true log mem =>
      log = [EvWarnMachine EM_ARM; EvLoading; EvEntry 0; EvSegment 0 0 4 4;
             EvSegment 2 16 8 2; EvLoaded]
      /\ take 4 mem = [Byte.x13; Byte.x05; Byte.xa0; Byte.x02]
  | _ => False
  end.
Proof. vm_compute. split; reflexivity. Qed.

(** ** The argument loop *)

Lemma parse_args_app pre rest st :
  parse_args (pre ++ rest) st
  = match parse_args pre st with
    | ArgNext st' => parse_args rest st'
    | stop => stop
    end.
Proof.
  revert st. induction pre as [|a pre IH]; intros st; simpl; [reflexivity|].
  destruct (parse_arg st a); try reflexivity. apply IH.
Qed.

(** C10.  An argument that begins with a plus sign is passed over by the
    argument loop, whatever follows the sign: no error, and neither the
    image path nor the timeout changes, so that the command line parses
    as it does without the argument.  The unknown-option error is raised
    for the arguments that begin with a minus sign and are none of [-h],
    [--help] and [--timeout=...], and for no others. *)
Theorem plus_arguments_accepted (a : string) :
  first_char_is "+" a = true ->
  (forall st, parse_arg st a = ArgNext st)
  /\ (forall pre post st,
        parse_args (pre ++ a :: post) st = parse_args (pre ++ post) st)
  /\ (forall st b x,
        parse_arg st b = ArgFail (UnknownOption x) <->
        (x = b /\ first_char_is "-" b = true
         /\ String.eqb b "-h" = false /\ String.eqb b "--help" = false
         /\ String.prefix "--timeout=" b = false)).
Proof.
  intros Hplus.
  assert (Hstep : forall st, parse_arg st a = ArgNext st).
  { intros st. unfold parse_arg.
    destruct a as [|c a']; [discriminate|]. simpl in Hplus.
    apply Ascii.eqb_eq in Hplus. subst c. reflexivity. }
  split; [exact Hstep|split].
  - intros pre post st. rewrite !parse_args_app.
    destruct (parse_args pre st) as [st'| | |]; try reflexivity.
    simpl. rewrite Hstep. reflexivity.
  - intros st b x. unfold parse_arg.
    destruct (String.eqb b "-h"); simpl.
    { split; [discriminate|]. intros (_ & _ & H & _). discriminate. }
    destruct (String.eqb b "--help"); simpl.
    { split; [discriminate|]. intros (_ & _ & _ & H & _). discriminate. }
    destruct (String.prefix "--timeout=" b).
    { split; [|intros (_ & _ & _ & _ & H); discriminate].
      destruct (atoi _) as [v|]; [|discriminate].
      destruct (v <=? 0); discriminate. }
    destruct b as [|c b']; simpl.
    { split; [|intros (_ & H & _); discriminate].
      destruct (elf_file st); discriminate. }
    destruct (Ascii.eqb_spec c "+") as [->|Hnp]; simpl.
    { split; [discriminate|]. intros (_ & H & _). discriminate. }
    destruct (Ascii.eqb c "-").
    + split; [intros [= <-]; auto|]. intros (-> & _). reflexivity.
    + split; [|intros (_ & H & _); discriminate].
      destruct (elf_file st); discriminate.
Qed.

Lemma plus_arguments_accepted_witness :
  (forall st, parse_arg st "+anything" = ArgNext st)
  /\ (forall pre post st,
        parse_args (pre ++ "+anything"%string :: post) st
        = parse_args (pre ++ post) st)
  /\ (forall st b x,
        parse_arg st b = ArgFail (UnknownOption x) <->
        (x = b /\ first_char_is "-" b = true
         /\ String.eqb b "-h" = false /\ String.eqb b "--help" = false
         /\ String.prefix "--timeout=" b = false)).
Proof. apply (plus_arguments_accepted "+anything"). reflexivity. Defined.

Example plus_argument_is_not_the_image :
  parse_args ["+bogus"; "prog.elf"; "+vcd"]%string initial_args
  = ArgNext (mkArgs (Some "prog.elf"%string) 1000000).
Proof. reflexivity. Qed.

Example unknown_minus_option_is_fatal :
  parse_args ["-x"; "prog.elf"]%string initial_args
  = ArgFail (UnknownOption "-x").
Proof. reflexivity. Qed.

(** ** The timeout option *)

Example atoi_examples :
  atoi "5000000" = Some 5000000 /\ atoi "0" = Some 0 /\ atoi "-5" = Some (-5)
  /\ atoi "abc" = Some 0 /\ atoi "" = Some 0
  /\ atoi "12abc" = Some 12 /\ atoi " +7" = Some 7 /\ atoi "1e6" = Some 1
  /\ atoi "2147483647" = Some INT_MAX /\ atoi "2147483648" = None.
Proof. repeat split; reflexivity. Qed.

(** The claim of C6 as worded fails: the value [12abc] is not a positive
    integer, and the option is accepted with a budget of 12 cycles, with
    which the simulation is run. *)
Lemma timeout_accepts_trailing_text :
  let D := counting_dut (Some 50%nat) 0 in
  spec_positive_integer "12abc" = false
  /\ parse_arg initial_args "--timeout=12abc" = ArgNext (mkArgs None 12)
  /\ match main ["tb"; "--timeout=12abc"; "prog.elf"]%string
                (mkEnv (fun _ => Some (sample_image EM_RISCV)) true) with
     | MainRan cfg st =>
         cfg_timeout cfg = 12 /\ model_created (MainRan cfg st) = true
     | _ => False
     end.
Proof. vm_compute. repeat split. Qed.

Section TimeoutOption.
Context {D : Dut}.

(** C6, amended.  The value [N] of [--timeout=N] is read by [atoi]:
    optional white space and sign, then the longest run of decimal
    digits, the rest of the text ignored.  Where [atoi] is defined the
    option is accepted iff that number is positive, and it becomes the
    budget; otherwise (a non-positive number, or no leading digits,
    which reads as 0) the run ends with the invalid-timeout error and
    exit code 1 before the model is created. *)
Theorem timeout_accepted_iff_atoi_positive
    (argv0 : string) (pre post : list string) (s : string)
    (st : Args) (v : Z) (env : Env) :
  parse_args pre initial_args = ArgNext st ->
  atoi s = Some v ->
  let arg := ("--timeout=" ++ s)%string in
  (parse_arg st arg = ArgNext (mkArgs (elf_file st) v) <-> 0 < v)
  /\ (v <= 0 ->
      parse_arg st arg = ArgFail InvalidTimeout
      /\ main (argv0 :: pre ++ arg :: post) env = MainArgError InvalidTimeout
      /\ exit_code (main (argv0 :: pre ++ arg :: post) env) = Some 1
      /\ model_created (main (argv0 :: pre ++ arg :: post) env) = false).
Proof.
  intros Hpre Hatoi arg.
  assert (Hstep : parse_arg st arg
                  = if v <=? 0 then ArgFail InvalidTimeout
                    else ArgNext (mkArgs (elf_file st) v)).
  { unfold parse_arg, arg. simpl.
    replace (String.prefix "" s) with true by (destruct s; reflexivity).
    rewrite Hatoi. reflexivity. }
  split.
  - rewrite Hstep. destruct (Z.leb_spec v 0); split; intros; try lia;
      try discriminate; reflexivity.
  - intros Hv.
    assert (Hfail : parse_arg st arg = ArgFail InvalidTimeout).
    { rewrite Hstep. destruct (Z.leb_spec v 0); [reflexivity|lia]. }
    assert (Hmain : main (argv0 :: pre ++ arg :: post) env
                    = MainArgError InvalidTimeout).
    { unfold main. simpl tail. rewrite parse_args_app, Hpre. simpl.
      rewrite Hfail. reflexivity. }
    rewrite Hmain. auto.
Qed.

End TimeoutOption.

Lemma timeout_accepted_iff_atoi_positive_witness :
  let D := counting_dut None 0 in
  let env := mkEnv (fun _ => None) true in
  let st := mkArgs (Some "prog.elf"%string) 1000000 in
  (parse_arg st "--timeout=-5" = ArgNext (mkArgs (elf_file st) (-5)) <-> 0 < -5)
  /\ (-5 <= 0 ->
      parse_arg st "--timeout=-5" = ArgFail InvalidTimeout
      /\ main ["tb"; "+vcd"; "prog.elf"; "--timeout=-5"; "+trace"]%string env
         = MainArgError InvalidTimeout
      /\ exit_code
           (main ["tb"; "+vcd"; "prog.elf"; "--timeout=-5"; "+trace"]%string
                 env) = Some 1
      /\ model_created
           (main ["tb"; "+vcd"; "prog.elf"; "--timeout=-5"; "+trace"]%string
                 env) = false).
Proof.
  intros D env st.
  apply (@timeout_accepted_iff_atoi_positive D "tb"
           ["+vcd"; "prog.elf"]%string ["+trace"]%string "-5" st (-5) env);
    reflexivity.
Defined.

Example timeout_zero_rejected :
  let D := counting_dut None 0 in
  main ["testbench"; "--timeout=0"; "prog.elf"]%string
       (mkEnv (fun _ => Some (sample_image EM_RISCV)) true)
  = MainArgError InvalidTimeout.
Proof. reflexivity. Qed.

(** ** The clock and reset sequence *)

(** Linear arithmetic with division by a constant. *)
Ltac div_lia := zify; Z.to_euclidean_division_equations; lia.

Lemma s32_small z : -2147483648 <= z <= 2147483647 -> s32 z = z.
Proof.
  intros Hz. unfold s32.
  change (2 ^ 31) with 2147483648. change (2 ^ 32) with 4294967296.
  rewrite Z.mod_small by lia. lia.
Qed.

Lemma s32_add_idemp a b : s32 (s32 a + b) = s32 (a + b).
Proof.
  unfold s32.
  replace ((a + 2 ^ 31) mod 2 ^ 32 - 2 ^ 31 + b + 2 ^ 31)
    with ((a + 2 ^ 31) mod 2 ^ 32 + b) by lia.
  rewrite Zplus_mod_idemp_l. do 2 f_equal. lia.
Qed.

Section DriverFacts.
Context {D : Dut}.
Variable cfg : Config.

Lemma sim_steps_S n st :
  sim_steps cfg (S n) st = sim_step cfg (sim_steps cfg n st).
Proof.
  revert st. induction n as [|n IH]; intros st; [reflexivity|].
  change (sim_steps cfg (S (S n)) st)
    with (sim_steps cfg (S n) (sim_step cfg st)).
  rewrite IH. reflexivity.
Qed.

(** The loop performs the first [n] iterations when the guard holds
    before each of them and fails after the last. *)
Lemma sim_loop_steps n :
  forall fuel st,
    (forall j, (j < n)%nat -> running cfg (sim_steps cfg j st) = true) ->
    running cfg (sim_steps cfg n st) = false ->
    (n <= fuel)%nat ->
    sim_loop cfg fuel st = Some (sim_steps cfg n st).
Proof.
  induction n as [|n IH]; intros fuel st Hrun Hstop Hfuel.
  - simpl in Hstop. destruct fuel; simpl; rewrite Hstop; reflexivity.
  - destruct fuel as [|fuel]; [lia|].
    pose proof (Hrun O ltac:(lia)) as Hfirst. simpl in Hfirst.
    simpl. rewrite Hfirst.
    apply IH; [|exact Hstop|lia].
    intros j Hj. apply (Hrun (S j)). lia.
Qed.

(** If the guard fails after [bound] iterations at the latest, there is
    a first iteration count at which it fails. *)
Lemma first_exit bound :
  forall st,
    running cfg (sim_steps cfg bound st) = false ->
    exists n, (n <= bound)%nat
              /\ (forall j, (j < n)%nat ->
                    running cfg (sim_steps cfg j st) = true)
              /\ running cfg (sim_steps cfg n st) = false.
Proof.
  induction bound as [|b IH]; intros st Hstop.
  - exists O. split; [lia|]. split; [intros j Hj; lia|exact Hstop].
  - destruct (running cfg st) eqn:Hr.
    + destruct (IH (sim_step cfg st) Hstop) as (n & Hn & Hbefore & Hat).
      exists (S n). split; [lia|]. split; [|exact Hat].
      intros [|j] Hj; [exact Hr|]. apply Hbefore. lia.
    + exists O. split; [lia|]. split; [intros j Hj; lia|exact Hr].
Qed.

(** Clock, reset, time and cycle count after [k] iterations, whatever
    the device does: the clock is high after an odd number of
    iterations, reset is released by the 42nd iteration (the first that
    sees [t > 200]) and stays released, and the cycle count follows the
    rising edges from the 43rd iteration on. *)
Lemma sim_steps_closed d (k : nat) :
  Z.of_nat k <= 2 * INT_MAX + 41 ->
  let st := sim_steps cfg k (initial_sim d) in
  clk st = Z.odd (Z.of_nat k)
  /\ resetn st = (42 <=? Z.of_nat k)
  /\ t st = s32 (5 * Z.of_nat k)
  /\ cycle st = Z.max 0 ((Z.of_nat k - 41) / 2).
Proof.
  unfold INT_MAX. induction k as [|k IH]; intros Hk.
  - simpl. repeat split.
  - cbv zeta in *. rewrite sim_steps_S.
    destruct IH as (Hclk & Hrst & Ht & Hcyc); [lia|].
    set (st := sim_steps cfg k (initial_sim d)) in *.
    assert (Hclk' : negb (clk st) = Z.odd (Z.of_nat (S k))).
    { rewrite Hclk, Nat2Z.inj_succ, Z.odd_succ, Z.negb_odd. reflexivity. }
    assert (Hrst' : (if 200 <? t st then true else resetn st)
                    = (42 <=? Z.of_nat (S k))).
    { rewrite Hrst, Ht.
      destruct (Z.leb_spec 42 (Z.of_nat k)).
      - destruct (200 <? _); destruct (Z.leb_spec 42 (Z.of_nat (S k)));
          try reflexivity; lia.
      - rewrite s32_small by lia.
        destruct (Z.ltb_spec 200 (5 * Z.of_nat k));
          destruct (Z.leb_spec 42 (Z.of_nat (S k))); try reflexivity; lia. }
    unfold sim_step. cbn [clk resetn t cycle].
    rewrite Hclk', Hrst'. split; [reflexivity|]. split; [reflexivity|].
    split.
    + rewrite Ht, s32_add_idemp. f_equal. lia.
    + rewrite Hcyc.
      destruct (Z.odd (Z.of_nat (S k))) eqn:Hodd.
      * apply Z.odd_spec in Hodd as [m Hm].
        destruct (Z.leb_spec 42 (Z.of_nat (S k))); cbn [andb].
        -- rewrite s32_small by (clear - Hk; div_lia).
           clear - Hk Hm H. div_lia.
        -- clear - Hk Hm H. div_lia.
      * rewrite <- Z.negb_even in Hodd. apply negb_false_iff in Hodd.
        apply Z.even_spec in Hodd as [m Hm]. cbn [andb].
        clear - Hk Hm. div_lia.
Qed.

End DriverFacts.

(** ** Termination and the terminal status *)

Section Termination.
Context {D : Dut}.
Variable cfg : Config.

Lemma sim_loop_stopped fuel :
  forall st st', sim_loop cfg fuel st = Some st' -> running cfg st' = false.
Proof.
  induction fuel as [|fuel IH]; intros st st'; simpl;
    destruct (running cfg st) eqn:Hr; try discriminate.
  - intros [= <-]. exact Hr.
  - apply IH.
  - intros [= <-]. exact Hr.
Qed.

Lemma cycle_closed_bound (j : nat) :
  Z.max 0 ((Z.of_nat j - 41) / 2) < cfg_timeout cfg
  <-> Z.of_nat j < 2 * cfg_timeout cfg + 41 /\ 0 < cfg_timeout cfg.
Proof. div_lia. Qed.

(** C3.  With a budget [T > 0] and a device that never raises the
    finish flag, the loop ends after [2 T + 41] iterations (given that
    much fuel) with [cycle] equal to [T]; the status is TIMEOUT and the
    exit code 2. *)
Theorem timeout_after_exactly_T_cycles (d : dut_state) (fuel : nat) :
  0 < cfg_timeout cfg <= INT_MAX ->
  (forall j, gotFinish (top (sim_steps cfg j (initial_sim d))) = false) ->
  (Z.to_nat (2 * cfg_timeout cfg + 41) <= fuel)%nat ->
  exists st,
    sim_loop cfg fuel (initial_sim d) = Some st
    /\ cycle st = cfg_timeout cfg
    /\ status cfg st = TIMEOUT
    /\ run_exit_code cfg st = 2.
Proof using Type.
  unfold INT_MAX. intros HT Hnever Hfuel.
  set (n := Z.to_nat (2 * cfg_timeout cfg + 41)) in *.
  assert (Hcycle : forall j, (j <= n)%nat ->
            cycle (sim_steps cfg j (initial_sim d))
            = Z.max 0 ((Z.of_nat j - 41) / 2)).
  { intros j Hj. apply sim_steps_closed. unfold INT_MAX. lia. }
  exists (sim_steps cfg n (initial_sim d)).
  assert (Hend : cycle (sim_steps cfg n (initial_sim d)) = cfg_timeout cfg).
  { rewrite Hcycle by lia. subst n. clear - HT. div_lia. }
  split; [|split; [exact Hend|]].
  - apply sim_loop_steps; [| |exact Hfuel].
    + intros j Hj. unfold running. rewrite Hnever, Hcycle by lia. simpl.
      apply Z.ltb_lt, cycle_closed_bound. lia.
    + unfold running. rewrite Hend. rewrite Z.ltb_irrefl.
      apply andb_false_r.
  - unfold status, run_exit_code, timed_out. rewrite Hend.
    rewrite Z.leb_refl. split; reflexivity.
Qed.

(** The loop always ends within [2 T + 41] iterations, with the cycle
    count at most [T]. *)
Lemma sim_loop_terminates (d : dut_state) :
  0 < cfg_timeout cfg <= INT_MAX ->
  exists n st,
    Z.of_nat n <= 2 * cfg_timeout cfg + 41
    /\ st = sim_steps cfg n (initial_sim d)
    /\ sim_loop cfg (loop_bound (cfg_timeout cfg)) (initial_sim d) = Some st
    /\ cycle st <= cfg_timeout cfg.
Proof using Type.
  unfold INT_MAX. intros HT.
  destruct (first_exit cfg (Z.to_nat (2 * cfg_timeout cfg + 41))
              (initial_sim d))
    as (n & Hn & Hbefore & Hat).
  { unfold running.
    destruct (sim_steps_closed cfg d (Z.to_nat (2 * cfg_timeout cfg + 41)))
      as (_ & _ & _ & Hc); [unfold INT_MAX; lia|].
    rewrite Hc.
    replace (Z.max 0 ((Z.of_nat (Z.to_nat (2 * cfg_timeout cfg + 41)) - 41)
                      / 2))
      with (cfg_timeout cfg)
      by (clear - HT; div_lia).
    rewrite Z.ltb_irrefl. apply andb_false_r. }
  exists n, (sim_steps cfg n (initial_sim d)).
  split; [lia|]. split; [reflexivity|]. split.
  - apply sim_loop_steps; try assumption. unfold loop_bound. lia.
  - destruct (sim_steps_closed cfg d n) as (_ & _ & _ & Hc);
      [unfold INT_MAX; lia|].
    rewrite Hc. clear - HT Hn. div_lia.
Qed.

(** C4, amended.  For every device and every budget [T > 0] the loop
    ends, and its terminal status is one of two: TIMEOUT with exit code
    2, exactly when the cycle count has reached the budget (then it
    equals [T]), whether or not the finish flag was raised on that last
    iteration; or FINISHED with exit code 0, exactly when the loop left
    with the cycle count below the budget, and then the finish flag is
    raised. *)
Theorem terminal_status (d : dut_state) :
  0 < cfg_timeout cfg <= INT_MAX ->
  exists st,
    sim_loop cfg (loop_bound (cfg_timeout cfg)) (initial_sim d) = Some st
    /\ ((status cfg st = TIMEOUT /\ run_exit_code cfg st = 2
         /\ cycle st = cfg_timeout cfg)
        \/ (status cfg st = FINISHED /\ run_exit_code cfg st = 0
            /\ cycle st < cfg_timeout cfg /\ gotFinish (top st) = true)).
Proof using Type.
  intros HT.
  destruct (sim_loop_terminates d HT) as (n & st & Hn & Hst & Hloop & Hle).
  exists st. split; [exact Hloop|].
  pose proof (sim_loop_stopped _ _ _ Hloop) as Hstop.
  unfold running in Hstop. fold (cfg_timeout cfg) in Hstop.
  unfold status, run_exit_code, timed_out.
  destruct (Z.leb_spec (cfg_timeout cfg) (cycle st)).
  - left. repeat split. lia.
  - right. repeat split; [assumption|].
    destruct (Z.ltb_spec (cycle st) (cfg_timeout cfg)); [|lia].
    rewrite andb_true_r in Hstop. apply negb_false_iff in Hstop. exact Hstop.
Qed.

End Termination.

Lemma timeout_after_exactly_T_cycles_witness :
  exists st,
    sim_loop (D := counting_dut None 0) (mkConfig 3 false true false) 47
             (@initial_sim (counting_dut None 0) O) = Some st
    /\ cycle st = 3
    /\ status (mkConfig 3 false true false) st = TIMEOUT
    /\ run_exit_code (mkConfig 3 false true false) st = 2.
Proof.
  apply (@timeout_after_exactly_T_cycles (counting_dut None 0)
           (mkConfig 3 false true false) O 47%nat).
  - unfold INT_MAX. simpl. lia.
  - intros j. reflexivity.
  - simpl. lia.
Defined.

(** The claim of C4 as worded fails: with a budget of one cycle and a
    device that raises the finish flag in its 43rd evaluation (the first
    active edge), the loop leaves with the flag raised and the status is
    TIMEOUT, exit code 2. *)
Lemma finish_on_last_cycle_reports_timeout :
  let cfg := mkConfig 1 false false false in
  match sim_loop (D := counting_dut (Some 43%nat) 0) cfg (loop_bound 1)
                 (@initial_sim (counting_dut (Some 43%nat) 0) O) with
  | Some st =>
      gotFinish (top st) = true /\ cycle st = 1
      /\ status cfg st = TIMEOUT /\ run_exit_code cfg st = 2
  | None => False
  end.
Proof. vm_compute. repeat split. Qed.

Lemma terminal_status_witness :
  let cfg := mkConfig 5 false false false in
  exists st,
    sim_loop (D := counting_dut (Some 45%nat) 0) cfg (loop_bound 5)
             (@initial_sim (counting_dut (Some 45%nat) 0) O) = Some st
    /\ ((status cfg st = TIMEOUT /\ run_exit_code cfg st = 2 /\ cycle st = 5)
        \/ (status cfg st = FINISHED /\ run_exit_code cfg st = 0
            /\ cycle st < 5 /\ gotFinish (top st) = true)).
Proof.
  apply (@terminal_status (counting_dut (Some 45%nat) 0)
           (mkConfig 5 false false false) O).
  unfold INT_MAX. simpl. lia.
Defined.

Example finish_before_budget :
  let cfg := mkConfig 5 false false false in
  match sim_loop (D := counting_dut (Some 45%nat) 0) cfg (loop_bound 5)
                 (@initial_sim (counting_dut (Some 45%nat) 0) O) with
  | Some st => cycle st = 2 /\ status cfg st = FINISHED
               /\ run_exit_code cfg st = 0 /\ t st = 225
  | None => False
  end.
Proof. vm_compute. repeat split. Qed.

(** ** Cycle count and logical time, step by step *)

Section Counters.
Context {D : Dut}.
Variable cfg : Config.

(** Inside the loop the cycle count goes up by one on an active edge
    and stays as it is on every other iteration. *)
Lemma cycle_counts_active_edges st :
  running cfg st = true -> cfg_timeout cfg <= INT_MAX ->
  -2147483648 <= cycle st ->
  cycle (sim_step cfg st)
  = if active_edge (sim_step cfg st) then cycle st + 1 else cycle st.
Proof.
  unfold running, INT_MAX, active_edge, sim_step. cbn [clk resetn cycle].
  intros Hrun HT Hlow. apply andb_true_iff in Hrun as [_ Hlt].
  apply Z.ltb_lt in Hlt.
  destruct (negb (clk st) && _); [|reflexivity].
  apply s32_small. lia.
Qed.

(** Logical time goes up by 5 as long as the sum fits an [int]. *)
Lemma time_advances st :
  -2147483648 <= t st -> t st + 5 <= INT_MAX ->
  t (sim_step cfg st) = t st + 5.
Proof.
  unfold INT_MAX, sim_step. cbn [t]. intros Hlo Hhi.
  apply s32_small. lia.
Qed.

Lemma time_closed d (k : nat) :
  Z.of_nat k <= 429496729 ->
  t (sim_steps cfg k (initial_sim d)) = 5 * Z.of_nat k.
Proof.
  intros Hk.
  destruct (sim_steps_closed cfg d k) as (_ & _ & Ht & _);
    [unfold INT_MAX; lia|].
  rewrite Ht. apply s32_small. lia.
Qed.

End Counters.

(** C7.  The cycle count follows the active edges, but logical time does
    not advance by 5 on every iteration: [t] is an [int].  With a budget
    of 214748345 cycles and a device that never finishes, the loop is
    still running after 429496729 iterations, [t] is then 2147483645, and
    the next [t += 5] leaves the range of [int]: the two's-complement
    result is -2147483646. *)
Theorem time_step_overflows :
  let D := counting_dut None 0 in
  let cfg := mkConfig 214748345 false false false in
  let n := Z.to_nat 429496729 in
  let st0 := @initial_sim D O in
  let st := sim_steps cfg n st0 in
  (forall j, (j <= n)%nat -> running cfg (sim_steps cfg j st0) = true)
  /\ t st = 2147483645
  /\ t (sim_step cfg st) = -2147483646
  /\ t (sim_step cfg st) <> t st + 5.
Proof.
  intros D cfg n st0 st.
  assert (Ht : t st = 2147483645).
  { unfold st, st0. rewrite time_closed; unfold n; lia. }
  split; [|split; [exact Ht|]].
  - intros j Hj. unfold running, st0.
    destruct (@sim_steps_closed D cfg O j) as (_ & _ & _ & Hc);
      [unfold INT_MAX, n in *; lia|].
    rewrite Hc. apply andb_true_iff. split; [reflexivity|].
    apply Z.ltb_lt. change (cfg_timeout cfg) with 214748345.
    unfold n in Hj. clear - Hj. div_lia.
  - assert (Hnext : t (sim_step cfg st) = -2147483646).
    { unfold sim_step. cbn [t]. rewrite Ht. reflexivity. }
    split; [exact Hnext|]. rewrite Hnext, Ht. discriminate.
Qed.

(** ** Trace records *)

Lemma string_app_assoc (a b c : string) :
  ((a ++ b) ++ c)%string = (a ++ (b ++ c))%string.
Proof.
  induction a as [|x a IH]; simpl; [reflexivity|]. rewrite IH. reflexivity.
Qed.

Lemma string_length_app (a b : string) :
  String.length (a ++ b) = (String.length a + String.length b)%nat.
Proof.
  induction a as [|x a IH]; simpl; [reflexivity|]. rewrite IH. reflexivity.
Qed.

Lemma all_hex_app (a b : string) :
  all_hex (a ++ b) = all_hex a && all_hex b.
Proof.
  induction a as [|x a IH]; simpl; [reflexivity|].
  rewrite IH. apply andb_assoc.
Qed.

Lemma hex_char_is_hex d : 0 <= d < 16 -> is_hex_digit (hex_char d) = true.
Proof.
  intros Hd.
  assert (Hcases : d = 0 \/ d = 1 \/ d = 2 \/ d = 3 \/ d = 4 \/ d = 5
                   \/ d = 6 \/ d = 7 \/ d = 8 \/ d = 9 \/ d = 10 \/ d = 11
                   \/ d = 12 \/ d = 13 \/ d = 14 \/ d = 15) by lia.
  repeat (destruct Hcases as [-> | Hcases]; [reflexivity|]).
  subst d. reflexivity.
Qed.

(** The digits produced for [v]: hexadecimal, no more than the fuel, and
    no more than [k] when [v < 16 ^ k]. *)
Lemma hex_digits_spec fuel :
  forall v acc, 0 <= v ->
    exists digs,
      hex_digits fuel v acc = (digs ++ acc)%string
      /\ all_hex digs = true
      /\ (String.length digs <= fuel)%nat
      /\ (forall k, (0 < k)%nat -> v < 16 ^ Z.of_nat k ->
            (String.length digs <= k)%nat).
Proof.
  induction fuel as [|fuel IH]; intros v acc Hv.
  - exists ""%string. simpl.
    split; [reflexivity|]. split; [reflexivity|]. split; [lia|]. intros; lia.
  - simpl.
    assert (Hc : is_hex_digit (hex_char (v mod 16)) = true).
    { apply hex_char_is_hex. apply Z.mod_pos_bound. lia. }
    destruct (Z.eqb_spec (v / 16) 0) as [Hq|Hq].
    + exists (String (hex_char (v mod 16)) ""). simpl. rewrite Hc.
      split; [reflexivity|]. split; [reflexivity|]. split; [lia|].
      intros; lia.
    + destruct (IH (v / 16) (String (hex_char (v mod 16)) acc))
        as (digs & Heq & Hhex & Hlen & Hk).
      { apply Z.div_pos; lia. }
      exists (digs ++ String (hex_char (v mod 16)) "")%string.
      rewrite Heq, string_app_assoc, all_hex_app, string_length_app, Hhex.
      simpl. rewrite Hc.
      split; [reflexivity|]. split; [reflexivity|]. split; [lia|].
      intros k Hkpos Hvk.
      destruct k as [|[|k]]; [lia| |].
      * exfalso. apply Hq. apply Z.div_small. simpl in Hvk. lia.
      * assert (String.length digs <= S k)%nat; [|lia].
        apply Hk; [lia|].
        apply Z.div_lt_upper_bound; [lia|].
        rewrite (Nat2Z.inj_succ (S k)), Z.pow_succ_r in Hvk by lia.
        exact Hvk.
Qed.

Lemma zeros_length n : String.length (zeros n) = n.
Proof.
  induction n as [|n IH]; simpl; [reflexivity|]. rewrite IH. reflexivity.
Qed.

Lemma zeros_all_hex n : all_hex (zeros n) = true.
Proof. induction n as [|n IH]; simpl; [reflexivity|]. exact IH. Qed.

Lemma hex_record_digits (d : string) :
  all_hex d = true -> hex_record (String.length d) (d ++ newline) = true.
Proof.
  induction d as [|c d IH]; simpl; [reflexivity|].
  intros Hd. apply andb_true_iff in Hd as [Hc Hd].
  rewrite Hc. simpl. apply IH, Hd.
Qed.

(** A trace line is at least 9 and at most 16 hexadecimal digits and a
    newline; it is 9 digits when the value is below [2 ^ 36]. *)
Lemma format_trace_shape v :
  exists m, (9 <= m <= 16)%nat
            /\ hex_record m (format_trace v) = true
            /\ (u64 v < 2 ^ 36 -> m = 9%nat).
Proof.
  unfold format_trace, zero_pad.
  assert (Hu : 0 <= u64 v < 2 ^ 64).
  { unfold u64. apply Z.mod_pos_bound. reflexivity. }
  destruct (hex_digits_spec 16 (u64 v) "" (proj1 Hu))
    as (digs & Heq & Hhex & Hlen & Hk).
  replace (digs ++ "")%string with digs in Heq
    by (clear; induction digs as [|c d IH]; simpl; [|rewrite <- IH];
        reflexivity).
  rewrite Heq.
  set (padded := (zeros (9 - String.length digs) ++ digs)%string).
  assert (Hp : all_hex padded = true).
  { unfold padded. rewrite all_hex_app, zeros_all_hex, Hhex. reflexivity. }
  assert (Hl : String.length padded = Nat.max 9 (String.length digs)).
  { unfold padded. rewrite string_length_app, zeros_length. lia. }
  exists (String.length padded). split; [lia|]. split.
  - apply hex_record_digits, Hp.
  - intros Hsmall. specialize (Hk 9%nat ltac:(lia) Hsmall). lia.
Qed.

Example format_trace_examples :
  format_trace 0 = ("000000000" ++ newline)%string
  /\ format_trace 0x8000abcde = ("8000abcde" ++ newline)%string
  /\ format_trace (2 ^ 36 - 1) = ("fffffffff" ++ newline)%string
  /\ format_trace (2 ^ 36) = ("1000000000" ++ newline)%string.
Proof. repeat split; reflexivity. Qed.

(** A value of the 36-bit trace port prints as exactly 9 digits. *)
Lemma format_trace_nine v :
  0 <= v < 2 ^ 36 -> hex_record 9 (format_trace v) = true.
Proof.
  intros Hv.
  destruct (format_trace_shape v) as (m & _ & Hrec & Hnine).
  rewrite Hnine in Hrec; [exact Hrec|].
  unfold u64. rewrite Z.mod_small; [lia|].
  change (2 ^ 36) with 68719476736 in Hv.
  change (2 ^ 64) with 18446744073709551616. lia.
Qed.

Section TraceRuns.
Context {D : Dut}.
Variable cfg : Config.

(** One iteration appends one line on an active edge with the valid pin
    high, when tracing is on, and nothing otherwise. *)
Lemma trace_file_step st :
  let st' := sim_step cfg st in
  trace_file st'
  = trace_file st
    ++ (if cfg_trace cfg && active_edge st' && trace_valid (top st')
        then [format_trace (trace_data (top st'))] else []).
Proof.
  unfold sim_step, active_edge. cbn [trace_file clk resetn top].
  rewrite <- (andb_assoc (cfg_trace cfg)).
  destruct (cfg_trace cfg && _ && _); [reflexivity|].
  rewrite app_nil_r. reflexivity.
Qed.

Lemma trace_events_S n st :
  trace_events cfg (S n) st
  = (if cfg_trace cfg && active_edge (sim_step cfg st)
        && trace_valid (top (sim_step cfg st))
     then [(cycle (sim_step cfg st),
            format_trace (trace_data (top (sim_step cfg st))))]
     else [])
    ++ trace_events cfg n (sim_step cfg st).
Proof. reflexivity. Qed.

Lemma trace_file_steps n :
  forall st,
    trace_file (sim_steps cfg n st)
    = trace_file st ++ map snd (trace_events cfg n st).
Proof.
  induction n as [|n IH]; intros st; simpl.
  - rewrite app_nil_r. reflexivity.
  - rewrite IH, trace_file_step, map_app, <- app_assoc. f_equal. f_equal.
    destruct (cfg_trace cfg && _ && _); reflexivity.
Qed.

Lemma trace_events_lines n :
  forall st,
    Forall (fun line => hex_record 9 line = true)
           (map snd (trace_events cfg n st)).
Proof.
  induction n as [|n IH]; intros st; simpl; [constructor|].
  rewrite map_app. apply Forall_app. split; [|apply IH].
  destruct (cfg_trace cfg && _ && _); [|constructor].
  constructor; [|constructor]. cbn [snd].
  apply format_trace_nine, trace_data_width.
Qed.

(** While the loop runs, the records of [n] iterations carry strictly
    increasing cycle counts, all above the count they started from. *)
Lemma trace_events_increasing n :
  forall st,
    cfg_timeout cfg <= INT_MAX -> -2147483648 <= cycle st ->
    (forall j, (j < n)%nat -> running cfg (sim_steps cfg j st) = true) ->
    StronglySorted Z.lt (map fst (trace_events cfg n st))
    /\ Forall (fun c => cycle st < c) (map fst (trace_events cfg n st)).
Proof.
  induction n as [|n IH]; intros st HT Hlow Hrun.
  - split; constructor.
  - rewrite trace_events_S.
    pose proof (cycle_counts_active_edges cfg st (Hrun O ltac:(lia)) HT Hlow)
      as Hcyc.
    destruct (IH (sim_step cfg st) HT) as [Hsorted Habove].
    { rewrite Hcyc. destruct (active_edge _); lia. }
    { intros j Hj. apply (Hrun (S j)). lia. }
    assert (Hmono : cycle st <= cycle (sim_step cfg st)).
    { rewrite Hcyc. destruct (active_edge _); lia. }
    assert (Habove' : Forall (fun c => cycle st < c)
              (map fst (trace_events cfg n (sim_step cfg st)))).
    { eapply Forall_impl; [exact Habove|]. intros c Hc.
      eapply Z.le_lt_trans; [exact Hmono|exact Hc]. }
    rewrite map_app.
    destruct (cfg_trace cfg && active_edge (sim_step cfg st)
              && trace_valid (top (sim_step cfg st))) eqn:Hw;
      cbn [map app fst].
    + apply andb_true_iff in Hw as [Hw _].
      apply andb_true_iff in Hw as [_ Hedge].
      rewrite Hedge in Hcyc.
      split.
      * constructor; [exact Hsorted|exact Habove].
      * constructor; [lia|exact Habove'].
    + split; [exact Hsorted|exact Habove'].
Qed.

(** C5.  With tracing on, over any [n] iterations the loop performs: the
    trace file grows by exactly the lines of the active edges on which
    the device shows the valid pin, one line per such edge and in the
    order of the edges; the cycle counts of these edges are strictly
    increasing; and every line is exactly 9 hexadecimal digits followed
    by a newline, as is the record of every value of the 36-bit trace
    port. *)
Theorem trace_records (st : Sim) (n : nat) :
  cfg_trace cfg = true ->
  cfg_timeout cfg <= INT_MAX -> -2147483648 <= cycle st ->
  (forall j, (j < n)%nat -> running cfg (sim_steps cfg j st) = true) ->
  let evs := trace_events cfg n st in
  trace_file (sim_steps cfg n st) = trace_file st ++ map snd evs
  /\ (forall j, (j < n)%nat ->
        let st' := sim_steps cfg (S j) st in
        trace_file st'
        = trace_file (sim_steps cfg j st)
          ++ (if active_edge st' && trace_valid (top st')
              then [format_trace (trace_data (top st'))] else []))
  /\ StronglySorted Z.lt (map fst evs)
  /\ Forall (fun line => hex_record 9 line = true) (map snd evs)
  /\ (forall v, 0 <= v < 2 ^ 36 -> hex_record 9 (format_trace v) = true).
Proof using Type.
  intros Htrace HT Hlow Hrun evs.
  split; [apply trace_file_steps|]. split; [|split; [|split]].
  - intros j Hj st'. unfold st'. rewrite sim_steps_S.
    rewrite trace_file_step, Htrace. reflexivity.
  - apply trace_events_increasing; assumption.
  - apply trace_events_lines.
  - apply format_trace_nine.
Qed.

End TraceRuns.

Lemma trace_records_witness :
  let D := counting_dut None 0x8000abcde in
  let cfg := mkConfig 3 false true false in
  let st := @initial_sim D O in
  let evs := trace_events cfg 47 st in
  trace_file (sim_steps cfg 47 st) = trace_file st ++ map snd evs
  /\ (forall j, (j < 47)%nat ->
        let st' := sim_steps cfg (S j) st in
        trace_file st'
        = trace_file (sim_steps cfg j st)
          ++ (if active_edge st' && trace_valid (top st')
              then [format_trace (trace_data (top st'))] else []))
  /\ StronglySorted Z.lt (map fst evs)
  /\ Forall (fun line => hex_record 9 line = true) (map snd evs)
  /\ (forall v, 0 <= v < 2 ^ 36 -> hex_record 9 (format_trace v) = true).
Proof.
  intros D cfg st.
  apply (@trace_records D cfg st 47%nat).
  - reflexivity.
  - unfold INT_MAX. simpl. lia.
  - simpl. lia.
  - intros j Hj.
    do 47 (destruct j as [|j]; [vm_compute; reflexivity|]). lia.
Defined.

Example traced_run :
  let cfg := mkConfig 3 false true false in
  match sim_loop (D := counting_dut None 0x8000abcde) cfg (loop_bound 3)
                 (@initial_sim (counting_dut None 0x8000abcde) O) with
  | Some st =>
      trace_file st = replicate 3 ("8000abcde" ++ newline)%string
      /\ cycle st = 3 /\ t st = 235
  | None => False
  end.
Proof. vm_compute. repeat split. Qed.

(** ** The whole of [main] *)

Lemma atoi_range s v : atoi s = Some v -> - INT_MAX - 1 <= v <= INT_MAX.
Proof.
  unfold atoi.
  destruct (match skip_spaces s with
            | String "-" r => (true, r)
            | String "+" r => (false, r)
            | _ => (false, skip_spaces s)
            end) as [neg s2].
  destruct (Z.leb_spec (- INT_MAX - 1)
              (if neg then - digits_value 0 s2 else digits_value 0 s2));
    simpl; [|discriminate].
  destruct (Z.leb_spec (if neg then - digits_value 0 s2 else digits_value 0 s2)
              INT_MAX); [|discriminate].
  intros [= <-]. lia.
Qed.

(** The budget is a positive [int] whatever the arguments are. *)
Lemma parse_args_timeout args :
  forall st st',
    parse_args args st = ArgNext st' ->
    0 < timeout_cycles st <= INT_MAX ->
    0 < timeout_cycles st' <= INT_MAX.
Proof.
  induction args as [|a args IH]; intros st st'; simpl.
  - intros [= <-]. auto.
  - destruct (parse_arg st a) as [st1| | |] eqn:Hstep; try discriminate.
    intros Hrest Hst. apply (IH _ _ Hrest).
    revert Hstep. unfold parse_arg.
    destruct (String.eqb a "-h" || String.eqb a "--help"); [discriminate|].
    destruct (String.prefix "--timeout=" a).
    { destruct (atoi _) as [v|] eqn:Hv; [|discriminate].
      destruct (Z.leb_spec v 0); [discriminate|].
      intros [= <-]. simpl. apply atoi_range in Hv. lia. }
    destruct (first_char_is "+" a); [intros [= <-]; exact Hst|].
    destruct (first_char_is "-" a); [discriminate|].
    destruct (elf_file st); [discriminate|].
    intros [= <-]. exact Hst.
Qed.

Section Main.
Context {D : Dut}.

(** [main] always returns, unless the run leaves the defined behaviour:
    the simulation loop is never cut by its fuel, and the exit code is 0,
    1 or 2. *)
Lemma main_returns (argv : list string) (env : Env) :
  main argv env = MainUndefined
  \/ exit_code (main argv env) = Some 0
  \/ exit_code (main argv env) = Some 1
  \/ exit_code (main argv env) = Some 2.
Proof.
  unfold main.
  destruct (parse_args (tail argv) initial_args) as [a| | |] eqn:Hargs;
    simpl; auto.
  destruct (elf_file a) as [path|]; simpl; auto.
  destruct (load (env_file env path) (dut_memory dut_new))
    as [[|] log mem|]; simpl; auto.
  assert (HT : 0 < timeout_cycles a <= INT_MAX).
  { apply (parse_args_timeout _ _ _ Hargs). unfold INT_MAX. simpl. lia. }
  set (cfg := mkConfig _ _ _ _).
  destruct (sim_loop_terminates cfg (dut_set_memory mem dut_new) HT)
    as (n & st & _ & _ & Hloop & _).
  change (cfg_timeout cfg) with (timeout_cycles a) in Hloop.
  rewrite Hloop. simpl. unfold run_exit_code.
  destruct (timed_out cfg st); auto.
Qed.

End Main.

Example main_runs_sample :
  let D := counting_dut (Some 51%nat) 0x8000abcde in
  match main ["testbench"; "+trace"; "--timeout=20"; "sample.elf"]%string
             (mkEnv (fun _ => Some (sample_image EM_RISCV)) true) with
  | MainRan cfg st =>
      cfg = mkConfig 20 false true false
      /\ cycle st = 5 /\ t st = 255
      /\ trace_file st = replicate 5 ("8000abcde" ++ newline)%string
      /\ exit_code (MainRan cfg st) = Some 0
  | _ => False
  end.
Proof. vm_compute. repeat split. Qed.

(** * Further properties of the loader *)

Lemma write_bytes_length m addr data m' :
  write_bytes m addr data = Some m' -> length m' = length m.
Proof.
  unfold write_bytes.
  destruct (Z.leb_spec 0 addr); simpl; [|discriminate].
  destruct (Z.leb_spec (addr + Z.of_nat (length data)) (Z.of_nat (length m)));
    [|discriminate].
  intros [= <-]. rewrite !length_app, length_take, length_drop. lia.
Qed.

Lemma place_segment_length f s mem mem' :
  place_segment f s mem = Some mem' -> length mem' = length mem.
Proof.
  unfold place_segment, memcpy, memset. intros Hp.
  assert (Hcopy : forall mem1,
            (if 0 <? p_filesz s
             then match read_bytes f (p_offset s) (p_filesz s) with
                  | Some data => write_bytes mem (load_addr s) data
                  | None => None
                  end
             else Some mem) = Some mem1 -> length mem1 = length mem).
  { intros mem1. destruct (0 <? p_filesz s); [|intros [= <-]; reflexivity].
    destruct (read_bytes f _ _); [|discriminate]. apply write_bytes_length. }
  destruct (if 0 <? p_filesz s then _ else _) as [mem1|]; [|discriminate].
  rewrite <- (Hcopy mem1 eq_refl).
  destruct (p_filesz s <? p_memsz s); [|injection Hp as <-; reflexivity].
  destruct (_ && _); [|discriminate].
  eapply write_bytes_length, Hp.
Qed.

(** What a placed segment writes lies between its load address and the
    end of the buffer. *)
Lemma place_segment_extent f base s mem mem' :
  read_segment f base = Some s -> place_segment f s mem = Some mem' ->
  (0 < p_filesz s -> load_addr s + p_filesz s <= Z.of_nat (length mem))
  /\ (p_filesz s < p_memsz s ->
      load_addr s + p_memsz s <= Z.of_nat (length mem)).
Proof.
  intros Hs Hp.
  pose proof (read_segment_range _ _ _ Hs) as (_ & _ & Hfs & Hms & _).
  pose proof (load_addr_range _ _ _ Hs) as Hla.
  revert Hp. unfold place_segment, memcpy, memset, write_bytes.
  destruct (Z.ltb_spec 0 (p_filesz s)) as [Hpos|Hzero].
  - destruct (read_bytes f _ _) as [data|] eqn:Hr; [|discriminate].
    pose proof (read_bytes_length _ _ _ _ Hr) as Hlen.
    destruct (Z.leb_spec 0 (load_addr s)); simpl; [|discriminate].
    destruct (Z.leb_spec (load_addr s + Z.of_nat (length data))
                (Z.of_nat (length mem))) as [Hfit|]; [|discriminate].
    set (mem1 := take _ mem ++ data ++ drop _ mem).
    assert (Hl1 : length mem1 = length mem).
    { unfold mem1. rewrite !length_app, length_take, length_drop. lia. }
    destruct (Z.ltb_spec (p_filesz s) (p_memsz s)); [|intros _; lia].
    destruct (Z.leb_spec 0 (p_memsz s - p_filesz s)); simpl; [|discriminate].
    destruct (Z.leb_spec (load_addr s + p_filesz s + (p_memsz s - p_filesz s))
                (Z.of_nat (length mem1))); [|discriminate].
    intros _. lia.
  - destruct (Z.ltb_spec (p_filesz s) (p_memsz s)); [|intros _; lia].
    destruct (Z.leb_spec 0 (p_memsz s - p_filesz s)); simpl; [|discriminate].
    destruct (Z.leb_spec (load_addr s + p_filesz s + (p_memsz s - p_filesz s))
                (Z.of_nat (length mem))); [|discriminate].
    intros _. lia.
Qed.

Lemma load_segment_length f e_phoff i log mem log' mem' :
  load_segment f e_phoff i log mem = Next log' mem' ->
  length mem' = length mem.
Proof.
  intros Hstep.
  apply load_segment_Next in Hstep as [[-> _]|(s & _ & _ & Hp)];
    [reflexivity|].
  eapply place_segment_length, Hp.
Qed.

Lemma load_segments_length f e_phoff n :
  forall i log mem r log' mem',
    load_segments f e_phoff n i log mem = Returned r log' mem' ->
    length mem' = length mem.
Proof.
  induction n as [|n IH]; intros i log mem r log' mem'; simpl.
  - intros [= _ _ <-]. reflexivity.
  - destruct (load_segment f e_phoff i log mem) as [log1 mem1|o] eqn:Hstep.
    + intros Hrest. rewrite (IH _ _ _ _ _ _ Hrest).
      eapply load_segment_length, Hstep.
    + intros ->.
      destruct (load_segment_Exit _ _ _ _ _ _ Hstep) as [H|[l H]];
        [discriminate|].
      injection H as _ _ <-. reflexivity.
Qed.

(** A loop that returns [false] stopped at a loadable header that fails
    the check, after a run over the headers before it that is the
    complete, successful run of the loop over those headers alone. *)
Lemma load_segments_false f e_phoff n :
  forall i log mem log' mem',
    load_segments f e_phoff n i log mem = Returned false log' mem' ->
    exists (k : nat) s logk,
      (k < n)%nat
      /\ segment_at f e_phoff (i + Z.of_nat k) s
      /\ exceeds_bounds s = true
      /\ load_segments f e_phoff k i log mem
         = Returned true (logk ++ [EvLoaded]) mem'
      /\ log' = logk
                ++ [EvSegment (i + Z.of_nat k) (load_addr s) (p_memsz s)
                              (p_filesz s)]
                ++ [EvError (SegmentBounds (i + Z.of_nat k) (load_addr s)
                                           (p_memsz s))].
Proof.
  induction n as [|n IH]; intros i log mem log' mem'; simpl; [discriminate|].
  destruct (load_segment f e_phoff i log mem) as [log1 mem1|o] eqn:Hstep.
  - intros Hrest.
    destruct (IH _ _ _ _ _ Hrest) as (k & s & logk & Hk & Hs & Hb & Hrun & Hlog).
    exists (S k), s, logk.
    replace (i + Z.of_nat (S k)) with (i + 1 + Z.of_nat k) by lia.
    split; [lia|]. split; [exact Hs|]. split; [exact Hb|].
    split; [|exact Hlog]. simpl. rewrite Hstep. exact Hrun.
  - intros ->.
    destruct (load_segment_Exit_false _ _ _ _ _ _ _ Hstep)
      as (s & Hs & Hb & -> & ->).
    exists O, s, log. rewrite Z.add_0_r.
    split; [lia|]. split; [exact Hs|]. split; [exact Hb|].
    split; reflexivity.
Qed.

Lemma failed_Returned o :
  failed o = true -> o = Returned false (final_log o) (final_memory o).
Proof. destruct o as [[|] log mem|]; simpl; congruence. Qed.

(** X1.  The ways [load] returns [false].  Either it stopped before the
    [memset] with one error line (the file cannot be opened or mapped, has
    no ELF magic, or is not of the 32-bit class) and the buffer is exactly
    as it was; or the last line is the segment-bounds error of a loadable
    header that fails the check, and the buffer has kept its size. *)
Theorem load_failure_modes (file : option (list byte)) memory log mem' :
  load file memory = Returned false log mem' ->
  (mem' = memory
   /\ (log = [EvError CannotOpen] \/ log = [EvError CannotMmap]
       \/ log = [EvError NotElf] \/ log = [EvError Not32Bit]))
  \/ (exists f i s log0,
        file = Some f /\ loadable f i s /\ exceeds_bounds s = true
        /\ log = log0 ++ [EvError (SegmentBounds i (load_addr s) (p_memsz s))]
        /\ length mem' = length memory).
Proof.
  unfold load. destruct file as [f|]; [|intros [= <- <-]; auto].
  destruct (Z.of_nat (length f) =? 0); [intros [= <- <-]; auto|].
  destruct (magic_ok f) as [[|]|]; [|intros [= <- <-]; auto 6|discriminate].
  destruct (byte_at f EI_CLASS) as [c|]; [|discriminate].
  destruct (negb (u8 c =? ELFCLASS32)); [intros [= <- <-]; auto 6|].
  unfold load_checked, load_image.
  destruct (get16 f OFF_e_machine) as [m|]; [|discriminate].
  destruct (memset memory 0 x00 MEM_SIZE) as [mem0|] eqn:Hzero; [|discriminate].
  destruct (get32 f OFF_e_entry) as [en|]; [|discriminate].
  destruct (get32 f OFF_e_phoff) as [po|] eqn:Hpo; [|discriminate].
  destruct (get16 f OFF_e_phnum) as [pn|] eqn:Hpn; [|discriminate].
  intros Hrun. right.
  pose proof (load_segments_length _ _ _ _ _ _ _ _ _ Hrun) as Hlen.
  destruct (load_segments_false _ _ _ _ _ _ _ _ Hrun)
    as (k & s & logk & Hk & Hs & Hb & _ & Hlog).
  exists f, (0 + Z.of_nat k), s,
    (logk ++ [EvSegment (0 + Z.of_nat k) (load_addr s) (p_memsz s)
                        (p_filesz s)]).
  split; [reflexivity|]. split.
  { exists po, pn. refine (conj Hpo (conj Hpn (conj _ Hs))).
    pose proof (get16_range _ _ _ Hpn). lia. }
  split; [exact Hb|]. split; [rewrite <- app_assoc; exact Hlog|].
  rewrite Hlen. unfold memset in Hzero.
  destruct (_ && _); [|discriminate].
  eapply write_bytes_length, Hzero.
Qed.

Lemma load_failure_modes_witness :
  (stale_memory = stale_memory
   /\ ([EvError NotElf] = [EvError CannotOpen]
       \/ [EvError NotElf] = [EvError CannotMmap]
       \/ [EvError NotElf] = [EvError NotElf]
       \/ [EvError NotElf] = [EvError Not32Bit]))
  \/ (exists f i s log0,
        Some text_file = Some f /\ loadable f i s /\ exceeds_bounds s = true
        /\ [EvError NotElf]
           = log0 ++ [EvError (SegmentBounds i (load_addr s) (p_memsz s))]
        /\ length stale_memory = length stale_memory).
Proof.
  apply (load_failure_modes (Some text_file) stale_memory [EvError NotElf]
           stale_memory).
  reflexivity.
Defined.

(** X2.  A load that fails on the bounds check is a partial load: the
    buffer it leaves is the one that the loop, run over the headers in
    front of the failing one only, completes with; the lines printed are
    those of that run followed by the segment line and the error of the
    failing header.  Nothing of the failing segment and of the headers
    behind it is placed. *)
Theorem failed_load_keeps_earlier_segments f memory log mem' e_phoff :
  header_ok f -> get32 f OFF_e_phoff = Some e_phoff ->
  load (Some f) memory = Returned false log mem' ->
  exists (k : nat) s mem0 log0 logk,
    loadable f (Z.of_nat k) s /\ exceeds_bounds s = true
    /\ memset memory 0 x00 MEM_SIZE = Some mem0
    /\ load_segments f e_phoff k 0 log0 mem0
       = Returned true (logk ++ [EvLoaded]) mem'
    /\ log = logk
             ++ [EvSegment (Z.of_nat k) (load_addr s) (p_memsz s) (p_filesz s)]
             ++ [EvError (SegmentBounds (Z.of_nat k) (load_addr s)
                                        (p_memsz s))].
Proof.
  intros Hok Hpo. rewrite (load_header_ok _ _ Hok).
  unfold load_checked, load_image. rewrite Hpo.
  destruct (get16 f OFF_e_machine) as [m|]; [|discriminate].
  destruct (memset memory 0 x00 MEM_SIZE) as [mem0|]; [|discriminate].
  destruct (get32 f OFF_e_entry) as [en|]; [|discriminate].
  destruct (get16 f OFF_e_phnum) as [pn|] eqn:Hpn; [|discriminate].
  intros Hrun.
  destruct (load_segments_false _ _ _ _ _ _ _ _ Hrun)
    as (k & s & logk & Hk & Hs & Hb & Hprefix & Hlog).
  rewrite Z.add_0_l in *.
  eexists k, s, mem0, _, logk.
  split.
  { exists e_phoff, pn. refine (conj Hpo (conj Hpn (conj _ Hs))).
    pose proof (get16_range _ _ _ Hpn). lia. }
  split; [exact Hb|]. split; [reflexivity|]. split; [exact Hprefix|exact Hlog].
Qed.

Lemma failed_load_keeps_earlier_segments_witness :
  let f := second_segment_out_image in
  let o := load (Some f) stale_memory in
  exists (k : nat) s mem0 log0 logk,
    loadable f (Z.of_nat k) s /\ exceeds_bounds s = true
    /\ memset stale_memory 0 x00 MEM_SIZE = Some mem0
    /\ load_segments f 52 k 0 log0 mem0
       = Returned true (logk ++ [EvLoaded]) (final_memory o)
    /\ final_log o
       = logk
         ++ [EvSegment (Z.of_nat k) (load_addr s) (p_memsz s) (p_filesz s)]
         ++ [EvError (SegmentBounds (Z.of_nat k) (load_addr s) (p_memsz s))].
Proof.
  apply (failed_load_keeps_earlier_segments second_segment_out_image
           stale_memory).
  - header_ok_by_eval.
  - vm_compute. reflexivity.
  - apply failed_Returned. vm_compute. reflexivity.
Defined.

Example second_segment_out_keeps_first :
  match load (Some second_segment_out_image) stale_memory with
  | Returned false log mem =>
      log = [EvLoading; EvEntry 0; EvSegment 0 0 4 4;
             EvSegment 1 (MEM_SIZE - 2) 8 2;
             EvError (SegmentBounds 1 (MEM_SIZE - 2) 8)]
      /\ take 6 mem
         = [Byte.x11; Byte.x22; Byte.x33; Byte.x44; x00; x00]
  | _ => False
  end.
Proof. vm_compute. split; reflexivity. Qed.

(** ** Overlapping segments *)

Lemma load_segments_untouched f e_phoff a n :
  forall i log mem r log' mem',
    load_segments f e_phoff n i log mem = Returned r log' mem' ->
    (forall j s, i <= j < i + Z.of_nat n -> segment_at f e_phoff j s ->
       ~ written s a) ->
    byte_at mem' a = byte_at mem a.
Proof.
  induction n as [|n IH]; intros i log mem r log' mem'; simpl.
  - intros [= _ _ <-] _. reflexivity.
  - destruct (load_segment f e_phoff i log mem) as [log1 mem1|o] eqn:Hstep.
    + intros Hrest Hout.
      rewrite (IH _ _ _ _ _ _ Hrest) by (intros j s Hj; apply Hout; lia).
      apply load_segment_Next in Hstep as [[-> _]|(s & Hs & _ & Hp)];
        [reflexivity|].
      pose proof (Hout i s ltac:(lia) Hs) as Hnot.
      apply (place_segment_outside _ _ _ _ _ Hp); unfold written in Hnot; tauto.
    + intros -> _.
      destruct (load_segment_Exit _ _ _ _ _ _ Hstep) as [H|[l H]];
        [discriminate|].
      injection H as _ _ <-. reflexivity.
Qed.

Lemma load_segments_last_writer f e_phoff a n :
  forall i log mem log' mem' j s,
    load_segments f e_phoff n i log mem = Returned true log' mem' ->
    i <= j < i + Z.of_nat n -> segment_at f e_phoff j s ->
    (forall j' s', j < j' < i + Z.of_nat n -> segment_at f e_phoff j' s' ->
       ~ written s' a) ->
    (in_file_part s a ->
     exists b, byte_at f (p_offset s + (a - load_addr s)) = Some b
               /\ byte_at mem' a = Some b)
    /\ (in_bss_part s a -> byte_at mem' a = Some x00).
Proof.
  induction n as [|n IH]; intros i log mem log' mem' j s Hrun Hj Hs Hlast;
    [lia|].
  simpl in Hrun.
  destruct (load_segment f e_phoff i log mem) as [log1 mem1|o] eqn:Hstep.
  2:{ apply load_segment_Exit in Hstep as [->|[l ->]]; discriminate. }
  destruct (Z.eq_dec j i) as [->|Hne].
  - assert (Hkeep : byte_at mem' a = byte_at mem1 a).
    { apply (load_segments_untouched _ _ _ _ _ _ _ _ _ _ Hrun).
      intros j' s' Hj'. apply Hlast. lia. }
    apply load_segment_Next in Hstep as [[_ Hnone]|(s0 & Hs0 & _ & Hp)].
    { destruct (Hnone _ Hs). }
    rewrite (segment_at_inj _ _ _ _ _ Hs Hs0) in *. rewrite Hkeep. split.
    + intros Ha. eapply place_segment_file_part; eauto.
    + intros Ha. eapply place_segment_bss_part; eauto.
  - apply (IH (i + 1) log1 mem1 log' mem' j s Hrun); [lia|exact Hs|].
    intros j' s' Hj'. apply Hlast. lia.
Qed.

(** X3.  Destination ranges that overlap are not rejected: after a
    successful load, a byte that several loadable segments write holds
    what the last of them in the program-header table put there, the
    byte of its file data or, in its allocated tail, zero. *)
Theorem last_segment_wins f memory log mem' i s a :
  load (Some f) memory = Returned true log mem' ->
  loadable f i s ->
  (forall j s', i < j -> loadable f j s' -> ~ written s' a) ->
  (in_file_part s a ->
   exists b, byte_at f (p_offset s + (a - load_addr s)) = Some b
             /\ byte_at mem' a = Some b)
  /\ (in_bss_part s a -> byte_at mem' a = Some x00).
Proof.
  intros Hload (po & pn & Hpo & Hpn & Hi & Hs) Hlast.
  destruct (load_success _ _ _ _ Hload)
    as (mem0 & e_phoff & e_phnum & log0 & _ & Hoff & Hnum & Hrun).
  assert (po = e_phoff) by congruence. assert (pn = e_phnum) by congruence.
  subst po pn. pose proof (get16_range _ _ _ Hnum).
  apply (load_segments_last_writer _ _ _ _ _ _ _ _ _ i s Hrun);
    [lia|exact Hs|].
  intros j s' Hj Hs'. apply (Hlast j s'); [lia|].
  exists e_phoff, e_phnum. refine (conj Hoff (conj Hnum (conj _ Hs'))). lia.
Qed.

Lemma last_segment_wins_witness :
  let f := overlap_image in
  let s := mkSegment 0 2 2 2 120 in
  let mem' := final_memory (load (Some f) stale_memory) in
  (in_file_part s 2 ->
   exists b, byte_at f (p_offset s + (2 - load_addr s)) = Some b
             /\ byte_at mem' 2 = Some b)
  /\ (in_bss_part s 2 -> byte_at mem' 2 = Some x00).
Proof.
  apply (last_segment_wins overlap_image stale_memory
           (final_log (load (Some overlap_image) stale_memory)) _ 1).
  - apply succeeded_Returned. vm_compute. reflexivity.
  - exists 52, 2. unfold segment_at.
    split; [|split; [|split; [lia|split]]]; vm_compute; reflexivity.
  - intros j s' Hj (po & pn & _ & Hpn & Hrange & _).
    vm_compute in Hpn. injection Hpn as <-. lia.
Defined.

Example overlap_image_loads :
  match load (Some overlap_image) stale_memory with
  | Returned true _ mem =>
      take 6 mem = [Byte.x11; Byte.x22; Byte.xee; Byte.xff; x00; x00]
  | _ => False
  end.
Proof. vm_compute. reflexivity. Qed.

(** ** The buffer before and behind the load *)

Lemma memset_whole (m : list byte) c n :
  Z.of_nat (length m) = n -> memset m 0 c n = Some (replicate (Z.to_nat n) c).
Proof.
  intros Hlen. unfold memset, write_bytes. rewrite length_replicate.
  destruct (Z.leb_spec 0 n); [|lia].
  destruct (Z.leb_spec (0 + n) (Z.of_nat (length m))); [|lia].
  destruct (Z.leb_spec (0 + Z.of_nat (Z.to_nat n)) (Z.of_nat (length m)));
    [|lia].
  simpl. rewrite drop_ge by lia. rewrite app_nil_r. reflexivity.
Qed.

(** X4.  What the buffer held before the call has no influence on a load
    that gets past the header checks: for two buffers of [MEM_SIZE] bytes
    the return value, the lines printed and the resulting buffer are the
    same. *)
Theorem load_ignores_stale_memory f m1 m2 :
  header_ok f ->
  Z.of_nat (length m1) = MEM_SIZE -> Z.of_nat (length m2) = MEM_SIZE ->
  load (Some f) m1 = load (Some f) m2.
Proof.
  intros Hok H1 H2. rewrite !(load_header_ok _ _ Hok).
  unfold load_checked, load_image.
  rewrite (memset_whole m1 x00 MEM_SIZE H1), (memset_whole m2 x00 MEM_SIZE H2).
  reflexivity.
Qed.

Lemma load_ignores_stale_memory_witness :
  load (Some (sample_image EM_RISCV)) stale_memory
  = load (Some (sample_image EM_RISCV)) zero_memory.
Proof.
  apply (load_ignores_stale_memory (sample_image EM_RISCV) stale_memory
           zero_memory).
  - header_ok_by_eval.
  - unfold stale_memory. rewrite length_replicate. vm_compute. reflexivity.
  - unfold zero_memory. rewrite length_replicate. vm_compute. reflexivity.
Defined.

Lemma load_segments_below_capacity f e_phoff a n :
  forall i log mem r log' mem',
    load_segments f e_phoff n i log mem = Returned r log' mem' ->
    Z.of_nat (length mem) < 2 ^ 32 ->
    (forall j s, i <= j < i + Z.of_nat n -> segment_at f e_phoff j s ->
       p_filesz s <= p_memsz s) ->
    MEM_SIZE <= a ->
    byte_at mem' a = byte_at mem a.
Proof.
  intros i log mem r log' mem' Hrun Hlen Hsz Ha.
  assert (Hstay : forall n' i' log1 mem1 r1 log1' mem1',
            load_segments f e_phoff n' i' log1 mem1 = Returned r1 log1' mem1' ->
            length mem1 = length mem ->
            (forall j s, i' <= j < i' + Z.of_nat n' ->
               segment_at f e_phoff j s -> p_filesz s <= p_memsz s) ->
            byte_at mem1' a = byte_at mem1 a).
  { clear Hrun Hsz. induction n' as [|n' IH];
      intros i' log1 mem1 r1 log1' mem1'; simpl.
    - intros [= _ _ <-] _ _. reflexivity.
    - destruct (load_segment f e_phoff i' log1 mem1) as [log2 mem2|o] eqn:Hstep.
      + intros Hrest Hl1 Hsz1.
        pose proof (load_segment_length _ _ _ _ _ _ _ Hstep) as Hl2.
        rewrite (IH _ _ _ _ _ _ Hrest) by
          (try congruence; intros j s Hj; apply Hsz1; lia).
        apply load_segment_Next in Hstep as [[-> _]|(s & Hs & Hb & Hp)];
          [reflexivity|].
        pose proof (Hsz1 i' s ltac:(lia) Hs) as Hle.
        pose proof (read_segment_range _ _ _ (proj2 Hs)) as (_ & _ & Hfs & Hms & _).
        pose proof (load_addr_range _ _ _ (proj2 Hs)) as Hla.
        pose proof (place_segment_extent _ _ _ _ _ (proj2 Hs) Hp) as [Hcopy Hfill].
        unfold exceeds_bounds, u32 in Hb.
        apply orb_false_iff in Hb as [Hlow Hsum].
        apply Z.leb_gt in Hlow. apply Z.ltb_ge in Hsum.
        assert (Hend : load_addr s + p_memsz s <= MEM_SIZE).
        { destruct (Z_lt_le_dec (load_addr s + p_memsz s) (2 ^ 32)) as [Hfit|Hwrap].
          - rewrite Z.mod_small in Hsum by lia. exact Hsum.
          - exfalso.
            destruct (Z_lt_le_dec (p_filesz s) (p_memsz s)) as [Hlt|Hge].
            + specialize (Hfill Hlt). lia.
            + assert (0 < p_filesz s) by (unfold MEM_SIZE in *; lia).
              specialize (Hcopy ltac:(assumption)). lia. }
        apply (place_segment_outside _ _ _ _ _ Hp);
          unfold in_file_part, in_bss_part; lia.
      + intros -> _ _.
        destruct (load_segment_Exit _ _ _ _ _ _ Hstep) as [H|[l H]];
          [discriminate|].
        injection H as _ _ <-. reflexivity. }
  apply (Hstay _ _ _ _ _ _ _ Hrun eq_refl Hsz).
Qed.

(** X5.  The loader stays inside the first [MEM_SIZE] bytes: when the
    loadable segments store no more than they allocate and [load]
    returns, with success or not, a buffer longer than [MEM_SIZE] (and
    shorter than 4 GiB) has kept its size and every byte from [MEM_SIZE]
    on. *)
Theorem load_writes_below_capacity f memory r log mem' a :
  load (Some f) memory = Returned r log mem' ->
  Z.of_nat (length memory) < 2 ^ 32 ->
  (forall i s, loadable f i s -> p_filesz s <= p_memsz s) ->
  MEM_SIZE <= a ->
  length mem' = length memory /\ byte_at mem' a = byte_at memory a.
Proof.
  unfold load.
  destruct (Z.of_nat (length f) =? 0); [intros [= _ _ <-]; auto|].
  destruct (magic_ok f) as [[|]|]; [|intros [= _ _ <-]; auto|discriminate].
  destruct (byte_at f EI_CLASS) as [c|]; [|discriminate].
  destruct (negb (u8 c =? ELFCLASS32)); [intros [= _ _ <-]; auto|].
  unfold load_checked, load_image.
  destruct (get16 f OFF_e_machine) as [m|]; [|discriminate].
  destruct (memset memory 0 x00 MEM_SIZE) as [mem0|] eqn:Hzero; [|discriminate].
  destruct (get32 f OFF_e_entry) as [en|]; [|discriminate].
  destruct (get32 f OFF_e_phoff) as [po|] eqn:Hpo; [|discriminate].
  destruct (get16 f OFF_e_phnum) as [pn|] eqn:Hpn; [|discriminate].
  intros Hrun Hlen Hsz Ha.
  assert (Hl0 : length mem0 = length memory).
  { unfold memset in Hzero. destruct (_ && _); [|discriminate].
    eapply write_bytes_length, Hzero. }
  split.
  - rewrite (load_segments_length _ _ _ _ _ _ _ _ _ Hrun). exact Hl0.
  - rewrite (load_segments_below_capacity _ _ a _ _ _ _ _ _ _ Hrun);
      [|rewrite Hl0; exact Hlen| |exact Ha].
    + rewrite (byte_at_memset _ _ _ _ _ a Hzero).
      destruct (Z.leb_spec 0 a); [|reflexivity].
      destruct (Z.ltb_spec a (0 + MEM_SIZE)); [lia|reflexivity].
    + intros j s Hj Hs. apply (Hsz j s). exists po, pn.
      refine (conj Hpo (conj Hpn (conj _ Hs))).
      pose proof (get16_range _ _ _ Hpn). lia.
Qed.

Lemma load_writes_below_capacity_witness :
  let memory := stale_memory ++ [Byte.xaa; Byte.xbb] in
  let mem' := final_memory (load (Some (sample_image EM_RISCV)) memory) in
  length mem' = length memory
  /\ byte_at mem' (MEM_SIZE + 1) = byte_at memory (MEM_SIZE + 1).
Proof.
  intros memory mem'.
  apply (load_writes_below_capacity (sample_image EM_RISCV) memory true
           (final_log (load (Some (sample_image EM_RISCV)) memory))).
  - apply succeeded_Returned. vm_compute. reflexivity.
  - unfold memory, stale_memory. rewrite length_app, length_replicate.
    vm_compute. reflexivity.
  - intros i s Hl.
    destruct (sample_loadable _ i s Hl) as [[-> ->] | [-> ->]]; simpl; lia.
  - vm_compute. discriminate.
Defined.

Lemma valid_image_loads_witness :
  succeeded (load (Some (sample_image EM_RISCV)) stale_memory) = true.
Proof.
  apply (valid_image_loads (sample_image EM_RISCV) stale_memory).
  - split; [header_ok_by_eval|].
    exists EM_RISCV, 0, 52, 3.
    split; [by_eval|]. split; [by_eval|]. split; [by_eval|].
    split; [by_eval|].
    intros i Hi.
    assert (Hc : i = 0 \/ i = 1 \/ i = 2) by lia.
    destruct Hc as [-> | [-> | ->]].
    + exists 1. split; [by_eval|]. intros _.
      exists (mkSegment 0 0 4 4 148). split; [by_eval|].
      repeat split; by_eval.
    + exists 4. split; [by_eval|]. intros H. discriminate H.
    + exists 1. split; [by_eval|]. intros _.
      exists (mkSegment 0 16 2 8 152). split; [by_eval|].
      repeat split; by_eval.
  - unfold stale_memory. rewrite length_replicate. by_eval.
Defined.

(** ** The bounds check in unbounded arithmetic *)

(** X6.  What the check lets through, for 32-bit fields: the segments
    that start below the capacity and either end within it or reach the
    4 GiB mark, where the 32-bit sum wraps. *)
Theorem exceeds_bounds_iff s :
  0 <= load_addr s < 2 ^ 32 -> 0 <= p_memsz s < 2 ^ 32 ->
  exceeds_bounds s = false
  <-> load_addr s < MEM_SIZE
      /\ (load_addr s + p_memsz s <= MEM_SIZE
          \/ 2 ^ 32 <= load_addr s + p_memsz s).
Proof.
  intros Hla Hms. unfold exceeds_bounds, u32.
  rewrite orb_false_iff, Z.leb_gt, Z.ltb_ge.
  change (2 ^ 32) with 4294967296 in *. unfold MEM_SIZE in *.
  destruct (Z_lt_le_dec (load_addr s + p_memsz s) 4294967296) as [Hfit|Hwrap].
  - rewrite Z.mod_small by lia. lia.
  - replace ((load_addr s + p_memsz s) mod 4294967296)
      with (load_addr s + p_memsz s - 4294967296)
      by (apply Z.mod_unique with (q := 1); lia).
    lia.
Qed.

Lemma exceeds_bounds_iff_witness :
  let s := mkSegment 4 0 0 (2 ^ 32 - 4) 84 in
  exceeds_bounds s = false
  <-> load_addr s < MEM_SIZE
      /\ (load_addr s + p_memsz s <= MEM_SIZE
          \/ 2 ^ 32 <= load_addr s + p_memsz s).
Proof.
  apply (exceeds_bounds_iff (mkSegment 4 0 0 (2 ^ 32 - 4) 84));
    vm_compute; split; discriminate || reflexivity.
Defined.

(** X9.  A loadable segment whose end [load_address + memory_size] lies
    above the capacity and below 4 GiB is rejected: the iteration that
    reaches it returns [false] with the segment-bounds error and leaves
    the buffer as it found it, so that none of the segment's bytes is
    copied; [load] does not succeed. *)
Theorem oversized_segment_rejected f memory i s :
  header_ok f -> loadable f i s ->
  MEM_SIZE < load_addr s + p_memsz s -> load_addr s + p_memsz s < 2 ^ 32 ->
  (forall e_phoff log mem,
     get32 f OFF_e_phoff = Some e_phoff ->
     load_segment f e_phoff i log mem
     = Exit (Returned false
               (log ++ [EvSegment i (load_addr s) (p_memsz s) (p_filesz s)]
                    ++ [EvError (SegmentBounds i (load_addr s) (p_memsz s))])
               mem))
  /\ succeeded (load (Some f) memory) = false.
Proof.
  intros Hok (po & pn & Hpo & Hpn & Hi & Hs) Hbig Hfit.
  pose proof (read_segment_range _ _ _ (proj2 Hs)) as (_ & _ & _ & Hms & _).
  pose proof (load_addr_range _ _ _ (proj2 Hs)) as Hla.
  assert (Hb : exceeds_bounds s = true).
  { apply exceeds_bounds_no_wrap; lia. }
  split.
  { intros e_phoff log mem He. assert (e_phoff = po) as -> by congruence.
    apply load_segment_rejects; assumption. }
  rewrite (load_header_ok _ _ Hok). unfold load_checked, load_image.
  destruct (get16 f OFF_e_machine) as [m|]; [|reflexivity].
  destruct (memset memory 0 x00 MEM_SIZE) as [mem0|]; [|reflexivity].
  destruct (get32 f OFF_e_entry) as [en|]; [|reflexivity].
  rewrite Hpo, Hpn.
  destruct (load_segments_rejects f po (Z.to_nat pn) 0
              (((if negb (m =? EM_RISCV) then [EvWarnMachine m] else [])
                ++ [EvLoading; EvEntry en])) mem0 i s ltac:(lia) Hs Hb)
    as [->|(j & s' & log' & mem' & _ & _ & _ & ->)]; reflexivity.
Qed.

Lemma oversized_segment_rejected_witness :
  let f := second_segment_out_image in
  let s := mkSegment (MEM_SIZE - 2) 0 2 8 120 in
  (forall e_phoff log mem,
     get32 f OFF_e_phoff = Some e_phoff ->
     load_segment f e_phoff 1 log mem
     = Exit (Returned false
               (log ++ [EvSegment 1 (load_addr s) (p_memsz s) (p_filesz s)]
                    ++ [EvError (SegmentBounds 1 (load_addr s) (p_memsz s))])
               mem))
  /\ succeeded (load (Some f) stale_memory) = false.
Proof.
  apply (oversized_segment_rejected second_segment_out_image stale_memory 1
           (mkSegment (MEM_SIZE - 2) 0 2 8 120)).
  - header_ok_by_eval.
  - exists 52, 2. unfold segment_at.
    split; [|split; [|split; [lia|split]]]; vm_compute; reflexivity.
  - by_eval.
  - by_eval.
Defined.

(** X8.  The check covers [memory_size] only.  A loadable segment that
    passes it and stores more bytes than the buffer holds from its load
    address on is copied all the same: the [memcpy] runs past the end of
    the buffer, which leaves the defined behaviour of the program. *)
Theorem long_file_part_overruns f e_phoff i log mem s :
  segment_at f e_phoff i s -> exceeds_bounds s = false ->
  0 < p_filesz s ->
  Z.of_nat (length mem) < load_addr s + p_filesz s ->
  load_segment f e_phoff i log mem = Exit Undefined.
Proof.
  intros [Hty Hs] Hb Hpos Hover. unfold load_segment.
  rewrite Hty, Z.eqb_refl, Hs, Hb.
  replace (place_segment f s mem) with (@None (list byte)); [reflexivity|].
  unfold place_segment, memcpy.
  destruct (Z.ltb_spec 0 (p_filesz s)); [|lia].
  destruct (read_bytes f (p_offset s) (p_filesz s)) as [data|] eqn:Hr;
    [|reflexivity].
  unfold write_bytes. rewrite (read_bytes_length _ _ _ _ Hr).
  destruct (Z.leb_spec (load_addr s + p_filesz s) (Z.of_nat (length mem)));
    [lia|].
  rewrite andb_false_r. reflexivity.
Qed.

Lemma long_file_part_overruns_witness :
  load_segment long_file_part_image 52 0 [] zero_memory = Exit Undefined.
Proof.
  apply (long_file_part_overruns long_file_part_image 52 0 [] zero_memory
           (mkSegment (MEM_SIZE - 4) 0 8 4 84)).
  - unfold segment_at. split; vm_compute; reflexivity.
  - by_eval.
  - by_eval.
  - unfold zero_memory. rewrite length_replicate. by_eval.
Defined.

(** * Further properties of the command line *)

Lemma is_help_minus a : is_help a = true -> first_char_is "-" a = true.
Proof.
  unfold is_help. intros H. apply orb_true_iff in H as [H|H];
    apply String.eqb_eq in H; subst a; reflexivity.
Qed.

Lemma is_timeout_minus a : is_timeout a = true -> first_char_is "-" a = true.
Proof.
  unfold is_timeout. destruct a as [|c a']; [discriminate|].
  cbn [String.prefix first_char_is].
  destruct (ascii_dec "-" c) as [<-|]; [reflexivity|discriminate].
Qed.

Lemma first_char_plus_minus a :
  first_char_is "-" a = true -> first_char_is "+" a = false.
Proof.
  destruct a as [|c a']; simpl; [discriminate|].
  intros H. apply Ascii.eqb_eq in H. subst c. reflexivity.
Qed.

Lemma positional_plain a :
  positional a = true -> is_help a = false /\ is_timeout a = false.
Proof.
  unfold positional. intros H. apply andb_true_iff in H as [_ H].
  apply negb_true_iff in H. split.
  - destruct (is_help a) eqn:Hh; [|reflexivity].
    apply is_help_minus in Hh. congruence.
  - destruct (is_timeout a) eqn:Ht; [|reflexivity].
    apply is_timeout_minus in Ht. congruence.
Qed.

(** What one argument that the loop passes does to the two variables. *)
Lemma parse_arg_Next st a st' :
  parse_arg st a = ArgNext st' ->
  is_help a = false
  /\ (first_char_is "-" a = true -> is_timeout a = true)
  /\ option_list (elf_file st) ++ (if positional a then [a] else [])
     = option_list (elf_file st')
  /\ (if is_timeout a
      then atoi (string_skip 10 a) = Some (timeout_cycles st')
           /\ 0 < timeout_cycles st'
      else timeout_cycles st' = timeout_cycles st).
Proof.
  unfold parse_arg. fold (is_help a). fold (is_timeout a).
  destruct (is_help a); [discriminate|].
  destruct (is_timeout a) eqn:Ht.
  - pose proof (is_timeout_minus _ Ht) as Hm.
    destruct (atoi (string_skip 10 a)) as [v|]; [|discriminate].
    destruct (Z.leb_spec v 0); [discriminate|].
    intros [= <-]. unfold positional. rewrite Hm, andb_false_r. simpl.
    rewrite app_nil_r. auto.
  - destruct (first_char_is "+" a) eqn:Hp.
    { intros [= <-]. unfold positional. rewrite Hp. simpl.
      rewrite app_nil_r. repeat split; try reflexivity.
      intros Hm. apply first_char_plus_minus in Hm. congruence. }
    destruct (first_char_is "-" a) eqn:Hm; [discriminate|].
    destruct (elf_file st) eqn:He; [discriminate|].
    intros [= <-]. unfold positional. rewrite Hp, Hm. simpl.
    repeat split; try reflexivity. discriminate.
Qed.

Lemma parse_args_Next args :
  forall st st',
    parse_args args st = ArgNext st' ->
    Forall (fun a => is_help a = false) args
    /\ Forall (fun a => first_char_is "-" a = true -> is_timeout a = true)
              args
    /\ option_list (elf_file st) ++ List.filter positional args
       = option_list (elf_file st')
    /\ (Forall (fun a => is_timeout a = false) args ->
        timeout_cycles st' = timeout_cycles st).
Proof.
  induction args as [|a args IH]; intros st st'; simpl.
  - intros [= <-]. rewrite app_nil_r. auto.
  - destruct (parse_arg st a) as [st1| | |] eqn:Hstep; try discriminate.
    intros Hrest.
    destruct (parse_arg_Next _ _ _ Hstep) as (Hh & Hm & Hp & Ht).
    destruct (IH _ _ Hrest) as (IHh & IHm & IHp & IHt).
    split; [constructor; assumption|].
    split; [constructor; assumption|].
    split.
    + rewrite <- IHp, <- Hp, <- app_assoc.
      destruct (positional a); reflexivity.
    + intros Hall. inversion Hall as [|? ? Ha Hrest']; subst.
      rewrite Ha in Ht. rewrite IHt by assumption. exact Ht.
Qed.

Lemma parse_args_last_timeout pre a post st st' :
  parse_args (pre ++ a :: post) st = ArgNext st' ->
  is_timeout a = true ->
  Forall (fun b => is_timeout b = false) post ->
  atoi (string_skip 10 a) = Some (timeout_cycles st')
  /\ 0 < timeout_cycles st'.
Proof.
  rewrite parse_args_app.
  destruct (parse_args pre st) as [st1| | |]; try discriminate.
  simpl. destruct (parse_arg st1 a) as [st2| | |] eqn:Hstep; try discriminate.
  intros Hrest Ht Hpost.
  destruct (parse_arg_Next _ _ _ Hstep) as (_ & _ & _ & Hv).
  rewrite Ht in Hv.
  destruct (parse_args_Next _ _ _ Hrest) as (_ & _ & _ & Hsame).
  rewrite (Hsame Hpost). exact Hv.
Qed.

(** The argument at which the loop returns, when it does. *)
Lemma parse_args_stop args :
  forall st r,
    parse_args args st = r -> (forall st', r <> ArgNext st') ->
    exists pre a post st1,
      args = pre ++ a :: post
      /\ parse_args pre st = ArgNext st1 /\ parse_arg st1 a = r.
Proof.
  induction args as [|a args IH]; intros st r; simpl.
  - intros <- Hr. destruct (Hr st). reflexivity.
  - destruct (parse_arg st a) as [st1| | |] eqn:Hstep.
    + intros Hrest Hr.
      destruct (IH _ _ Hrest Hr) as (pre & b & post & st2 & -> & Hpre & Hb).
      exists (a :: pre), b, post, st2. simpl. rewrite Hstep. auto.
    + intros <- _. exists [], a, args, st. auto.
    + intros <- _. exists [], a, args, st. auto.
    + intros <- _. exists [], a, args, st. auto.
Qed.

(** X10.  When the argument loop runs to its end, no argument is a help
    flag, every argument with a leading minus sign is a [--timeout=]
    option, the image path is the one argument that starts with neither
    sign (none, if there is no such argument), and the budget is the
    value [atoi] reads from the last [--timeout=] option, which is
    positive; it is 1000000 when there is no such option. *)
Theorem parsed_command_line args st :
  parse_args args initial_args = ArgNext st ->
  Forall (fun a => is_help a = false) args
  /\ Forall (fun a => first_char_is "-" a = true -> is_timeout a = true) args
  /\ List.filter positional args = option_list (elf_file st)
  /\ (Forall (fun a => is_timeout a = false) args ->
      timeout_cycles st = 1000000)
  /\ (forall pre a post,
        args = pre ++ a :: post -> is_timeout a = true ->
        Forall (fun b => is_timeout b = false) post ->
        atoi (string_skip 10 a) = Some (timeout_cycles st)
        /\ 0 < timeout_cycles st).
Proof.
  intros Hparse.
  destruct (parse_args_Next _ _ _ Hparse) as (Hh & Hm & Hp & Ht).
  split; [exact Hh|]. split; [exact Hm|]. split; [exact Hp|].
  split; [exact Ht|].
  intros pre a post -> Ha Hpost.
  exact (parse_args_last_timeout _ _ _ _ _ Hparse Ha Hpost).
Qed.

Lemma parsed_command_line_witness :
  let args := ["+vcd"; "--timeout=5"; "prog.elf"; "--timeout=70x"]%string in
  let st := mkArgs (Some "prog.elf"%string) 70 in
  Forall (fun a => is_help a = false) args
  /\ Forall (fun a => first_char_is "-" a = true -> is_timeout a = true) args
  /\ List.filter positional args = option_list (elf_file st)
  /\ (Forall (fun a => is_timeout a = false) args ->
      timeout_cycles st = 1000000)
  /\ (forall pre a post,
        args = pre ++ a :: post -> is_timeout a = true ->
        Forall (fun b => is_timeout b = false) post ->
        atoi (string_skip 10 a) = Some (timeout_cycles st)
        /\ 0 < timeout_cycles st).
Proof.
  apply (parsed_command_line
           ["+vcd"; "--timeout=5"; "prog.elf"; "--timeout=70x"]%string
           (mkArgs (Some "prog.elf"%string) 70)).
  reflexivity.
Defined.

Section CommandLine.
Context {D : Dut}.

Lemma main_arg_stop argv env :
  (main argv env = MainUsage
   <-> parse_args (tail argv) initial_args = ArgUsage)
  /\ (forall e, e <> NoElfFile ->
        (main argv env = MainArgError e
         <-> parse_args (tail argv) initial_args = ArgFail e)).
Proof.
  unfold main.
  destruct (parse_args (tail argv) initial_args) as [a| | |].
  - split; [|intros e He]; (split; [|discriminate]).
    + destruct (elf_file a); [|discriminate].
      destruct (load _ _) as [[|] ? ?|]; try discriminate.
      destruct (sim_loop _ _ _); discriminate.
    + destruct (elf_file a); [|intros [= <-]; destruct He; reflexivity].
      destruct (load _ _) as [[|] ? ?|]; try discriminate.
      destruct (sim_loop _ _ _); discriminate.
  - split; [tauto|]. intros e _. split; discriminate.
  - split; [split; discriminate|]. intros e' _.
    split; intros [= ->]; reflexivity.
  - split; [split; discriminate|]. intros e' _. split; discriminate.
Qed.

(** X11.  [main] prints the usage text and returns 0 exactly when some
    argument is [-h] or [--help] and the arguments in front of it pass
    the loop.  What follows the flag is not looked at, no file is read
    and the model is not created. *)
Theorem help_flag_wins argv env :
  (main argv env = MainUsage
   <-> exists pre a post st,
         tail argv = pre ++ a :: post
         /\ parse_args pre initial_args = ArgNext st /\ is_help a = true)
  /\ (main argv env = MainUsage ->
      exit_code (main argv env) = Some 0
      /\ model_created (main argv env) = false
      /\ forall env', main argv env' = MainUsage).
Proof.
  assert (Hiff : forall env0,
            main argv env0 = MainUsage
            <-> exists pre a post st,
                  tail argv = pre ++ a :: post
                  /\ parse_args pre initial_args = ArgNext st
                  /\ is_help a = true).
  { intros env0. rewrite (proj1 (main_arg_stop argv env0)). split.
    - intros Hu.
      destruct (parse_args_stop _ _ _ Hu ltac:(discriminate))
        as (pre & a & post & st & Hsplit & Hpre & Ha).
      exists pre, a, post, st. split; [exact Hsplit|]. split; [exact Hpre|].
      revert Ha. unfold parse_arg. fold (is_help a).
      destruct (is_help a); [reflexivity|].
      destruct (String.prefix _ a).
      { destruct (atoi _) as [v|]; [|discriminate].
        destruct (v <=? 0); discriminate. }
      destruct (first_char_is "+" a); [discriminate|].
      destruct (first_char_is "-" a); [discriminate|].
      destruct (elf_file st); discriminate.
    - intros (pre & a & post & st & -> & Hpre & Ha).
      rewrite parse_args_app, Hpre. simpl. unfold parse_arg.
      fold (is_help a). rewrite Ha. reflexivity. }
  split; [apply Hiff|].
  intros Hu. rewrite Hu. split; [reflexivity|]. split; [reflexivity|].
  intros env'. apply Hiff. apply (Hiff env). exact Hu.
Qed.

(** X12.  The two errors about the number of image paths.  [main]
    reports that no image was given exactly when the loop passes every
    argument and none of them starts with a character other than a plus
    or minus sign; it reports several images exactly at an argument of
    that kind that follows arguments which pass the loop and hold one
    such argument already.  Both return 1. *)
Theorem image_count_errors argv env :
  (main argv env = MainArgError NoElfFile
   <-> exists st, parse_args (tail argv) initial_args = ArgNext st
                  /\ List.filter positional (tail argv) = [])
  /\ (main argv env = MainArgError MultipleElf
      <-> exists pre a post st p,
            tail argv = pre ++ a :: post
            /\ parse_args pre initial_args = ArgNext st
            /\ List.filter positional pre = [p] /\ positional a = true).
Proof.
  split.
  - unfold main.
    destruct (parse_args (tail argv) initial_args) as [a| | |] eqn:Hparse.
    + destruct (parse_args_Next _ _ _ Hparse) as (_ & _ & Hp & _).
      simpl in Hp. rewrite Hp.
      destruct (elf_file a) as [p|]; simpl.
      * split.
        -- destruct (load _ _) as [[|] ? ?|]; try discriminate.
           destruct (sim_loop _ _ _); discriminate.
        -- intros (st & _ & Hnil). discriminate.
      * split; [|reflexivity]. intros _. exists a. auto.
    + split; [discriminate|]. intros (st & H & _). discriminate.
    + split; [|intros (st & H & _); discriminate].
      intros [= ->].
      destruct (parse_args_stop _ _ _ Hparse ltac:(discriminate))
        as (pre & a & post & st & _ & _ & Ha).
      revert Ha. unfold parse_arg.
      destruct (_ || _); [discriminate|].
      destruct (String.prefix _ a).
      { destruct (atoi _) as [v|]; [|discriminate].
        destruct (v <=? 0); discriminate. }
      destruct (first_char_is "+" a); [discriminate|].
      destruct (first_char_is "-" a); [discriminate|].
      destruct (elf_file st); discriminate.
    + split; [discriminate|]. intros (st & H & _). discriminate.
  - rewrite (proj2 (main_arg_stop argv env) MultipleElf ltac:(discriminate)).
    split.
    + intros Hfail.
      destruct (parse_args_stop _ _ _ Hfail ltac:(discriminate))
        as (pre & a & post & st & Hsplit & Hpre & Ha).
      destruct (parse_args_Next _ _ _ Hpre) as (_ & _ & Hp & _).
      simpl in Hp. revert Ha. unfold parse_arg.
      destruct (_ || _); [discriminate|].
      destruct (String.prefix _ a).
      { destruct (atoi _) as [v|]; [|discriminate].
        destruct (v <=? 0); discriminate. }
      destruct (first_char_is "+" a) eqn:Hplus; [discriminate|].
      destruct (first_char_is "-" a) eqn:Hminus; [discriminate|].
      destruct (elf_file st) as [p|]; [|discriminate].
      intros _. exists pre, a, post, st, p.
      split; [exact Hsplit|]. split; [exact Hpre|]. split; [exact Hp|].
      unfold positional. rewrite Hplus, Hminus. reflexivity.
    + intros (pre & a & post & st & p & -> & Hpre & Hone & Ha).
      destruct (parse_args_Next _ _ _ Hpre) as (_ & _ & Hp & _).
      simpl in Hp. rewrite Hone in Hp.
      destruct (elf_file st) as [q|] eqn:He; [|discriminate].
      rewrite parse_args_app, Hpre. simpl. unfold parse_arg.
      destruct (positional_plain _ Ha) as [Hh Ht].
      fold (is_help a). fold (is_timeout a). rewrite Hh, Ht.
      unfold positional in Ha. apply andb_true_iff in Ha as [Hplus Hminus].
      apply negb_true_iff in Hplus. apply negb_true_iff in Hminus.
      rewrite Hplus, Hminus, He. reflexivity.
Qed.

End CommandLine.

Example no_image_given :
  let D := counting_dut None 0 in
  main ["tb"; "+vcd"; "--timeout=7"]%string (mkEnv (fun _ => None) true)
  = MainArgError NoElfFile.
Proof. reflexivity. Qed.

Example two_images_given :
  let D := counting_dut None 0 in
  main ["tb"; "a.elf"; "+vcd"; "b.elf"; "--bogus"]%string
       (mkEnv (fun _ => None) true)
  = MainArgError MultipleElf.
Proof. reflexivity. Qed.

Example help_after_image :
  let D := counting_dut None 0 in
  main ["tb"; "a.elf"; "--help"; "--bogus"]%string
       (mkEnv (fun _ => None) true)
  = MainUsage.
Proof. reflexivity. Qed.

(** * Further properties of the simulation loop *)

(** ** The output files do not steer the run *)

Section Capture.
Context {D : Dut}.

Lemma sim_step_core cfg1 cfg2 st1 st2 :
  core st1 = core st2 -> core (sim_step cfg1 st1) = core (sim_step cfg2 st2).
Proof.
  unfold core. intros H. injection H as Hclk Hrst Ht Hcyc Htop.
  unfold sim_step. cbn [clk resetn t cycle top].
  rewrite Hclk, Hrst, Ht, Hcyc, Htop. reflexivity.
Qed.

Lemma running_core cfg1 cfg2 st1 st2 :
  cfg_timeout cfg1 = cfg_timeout cfg2 -> core st1 = core st2 ->
  running cfg1 st1 = running cfg2 st2.
Proof.
  unfold core, running. intros HT H. injection H as Hclk Hrst Ht Hcyc Htop.
  rewrite HT, Hcyc, Htop. reflexivity.
Qed.

Lemma sim_loop_core cfg1 cfg2 fuel :
  forall st1 st2,
    cfg_timeout cfg1 = cfg_timeout cfg2 -> core st1 = core st2 ->
    option_map core (sim_loop cfg1 fuel st1)
    = option_map core (sim_loop cfg2 fuel st2).
Proof.
  induction fuel as [|fuel IH]; intros st1 st2 HT Hc; simpl;
    rewrite (running_core cfg1 cfg2 st1 st2 HT Hc);
    destruct (running cfg2 st2); simpl; try reflexivity;
    try (f_equal; exact Hc).
  apply IH; [exact HT|]. apply sim_step_core. exact Hc.
Qed.

Lemma exit_code_core cfg1 cfg2 st1 st2 :
  cfg_timeout cfg1 = cfg_timeout cfg2 -> core st1 = core st2 ->
  status cfg1 st1 = status cfg2 st2
  /\ run_exit_code cfg1 st1 = run_exit_code cfg2 st2.
Proof.
  unfold core, status, run_exit_code, timed_out. intros HT H.
  injection H as Hclk Hrst Ht Hcyc Htop. rewrite HT, Hcyc. auto.
Qed.

(** X15.  Two runs with the same budget that start from the same clock,
    reset, time, cycle count and device go through the same states of
    these, whatever the waveform, trace and verbose switches are and
    whatever the three outputs hold: both are cut by the same fuel or
    both end, and then in the same clock, reset, time, cycle count and
    device, with the same status and exit code. *)
Theorem capture_does_not_interfere cfg1 cfg2 fuel st1 st2 :
  cfg_timeout cfg1 = cfg_timeout cfg2 -> core st1 = core st2 ->
  match sim_loop cfg1 fuel st1, sim_loop cfg2 fuel st2 with
  | Some r1, Some r2 =>
      core r1 = core r2 /\ status cfg1 r1 = status cfg2 r2
      /\ run_exit_code cfg1 r1 = run_exit_code cfg2 r2
  | None, None => True
  | _, _ => False
  end.
Proof.
  intros HT Hc. pose proof (sim_loop_core cfg1 cfg2 fuel st1 st2 HT Hc) as H.
  destruct (sim_loop cfg1 fuel st1) as [r1|],
           (sim_loop cfg2 fuel st2) as [r2|]; simpl in H;
    try discriminate; [|exact I].
  apply (inj Some) in H. split; [exact H|].
  apply exit_code_core; assumption.
Qed.

Lemma sim_step_sinks cfg st :
  (cfg_vcd cfg = false -> vcd_file (sim_step cfg st) = vcd_file st)
  /\ (cfg_trace cfg = false -> trace_file (sim_step cfg st) = trace_file st)
  /\ (cfg_verbose cfg = false -> progress (sim_step cfg st) = progress st).
Proof.
  unfold sim_step. cbn [vcd_file trace_file progress].
  split; [|split]; intros ->; [reflexivity|reflexivity|].
  rewrite andb_false_r. reflexivity.
Qed.

Lemma sim_loop_trace_off cfg fuel :
  forall st st',
    sim_loop cfg fuel st = Some st' -> cfg_trace cfg = false ->
    trace_file st' = trace_file st.
Proof.
  induction fuel as [|fuel IH]; intros st st'; simpl;
    destruct (running cfg st); try discriminate.
  - intros [= <-] _. reflexivity.
  - intros Hloop Hoff. rewrite (IH _ _ Hloop Hoff).
    apply sim_step_sinks. exact Hoff.
  - intros [= <-] _. reflexivity.
Qed.

(** X20.  An output that is switched off receives nothing during the
    loop: without the waveform no time is dumped, without the trace file
    no record is written, and without the verbose switch no cycle count
    is printed, however long the loop runs and whatever the device
    does. *)
Theorem disabled_outputs_receive_nothing cfg fuel st st' :
  sim_loop cfg fuel st = Some st' ->
  (cfg_vcd cfg = false -> vcd_file st' = vcd_file st)
  /\ (cfg_trace cfg = false -> trace_file st' = trace_file st)
  /\ (cfg_verbose cfg = false -> progress st' = progress st).
Proof.
  revert st. induction fuel as [|fuel IH]; intros st; simpl;
    destruct (running cfg st); try discriminate.
  - intros [= <-]. auto.
  - intros Hloop. destruct (IH _ Hloop) as (Hv & Ht & Hp).
    destruct (sim_step_sinks cfg st) as (Hv1 & Ht1 & Hp1).
    split; [|split]; intros Hoff.
    + rewrite Hv, Hv1 by exact Hoff. reflexivity.
    + rewrite Ht, Ht1 by exact Hoff. reflexivity.
    + rewrite Hp, Hp1 by exact Hoff. reflexivity.
  - intros [= <-]. auto.
Qed.

End Capture.

Lemma capture_does_not_interfere_witness :
  let D := counting_dut (Some 47%nat) 7 in
  let cfg1 := mkConfig 9 true true true in
  let cfg2 := mkConfig 9 false false false in
  match sim_loop cfg1 60 (@initial_sim D O),
        sim_loop cfg2 60 (@initial_sim D O) with
  | Some r1, Some r2 =>
      core r1 = core r2 /\ status cfg1 r1 = status cfg2 r2
      /\ run_exit_code cfg1 r1 = run_exit_code cfg2 r2
  | None, None => True
  | _, _ => False
  end.
Proof.
  apply (@capture_does_not_interfere (counting_dut (Some 47%nat) 7)
           (mkConfig 9 true true true) (mkConfig 9 false false false)
           60%nat (@initial_sim (counting_dut (Some 47%nat) 7) O)
           (@initial_sim (counting_dut (Some 47%nat) 7) O));
    reflexivity.
Defined.

Lemma disabled_outputs_receive_nothing_witness :
  let cfg := mkConfig 9 false false false in
  let st' := @mkSim (counting_dut (Some 47%nat) 7)
               true true 235 3 47%nat [] [] [] in
  (cfg_vcd cfg = false -> vcd_file st' = [])
  /\ (cfg_trace cfg = false -> trace_file st' = [])
  /\ (cfg_verbose cfg = false -> progress st' = []).
Proof.
  apply (@disabled_outputs_receive_nothing (counting_dut (Some 47%nat) 7)
           (mkConfig 9 false false false) 60%nat
           (@initial_sim (counting_dut (Some 47%nat) 7) O)
           (@mkSim (counting_dut (Some 47%nat) 7)
              true true 235 3 47%nat [] [] [])).
  reflexivity.
Defined.

(** ** What the device is driven with, and what is written *)

Section Stimulus.
Context {D : Dut}.

(** X16.  The stimulus is fixed: whatever the budget, the switches and
    the device, after [n] iterations of the loop body the device has
    been evaluated [n] times, the [k]-th time with the clock high for
    odd [k] and with reset asserted for [k] up to 41 and released from
    the 42nd evaluation on, for good: the wrap of the time counter never
    asserts it again. *)
Theorem stimulus_sequence cfg d n :
  clk (sim_steps cfg n (initial_sim d)) = Z.odd (Z.of_nat n)
  /\ resetn (sim_steps cfg n (initial_sim d)) = (42 <=? Z.of_nat n)
  /\ top (sim_steps cfg n (initial_sim d)) = driven n d.
Proof.
  assert (H : clk (sim_steps cfg n (initial_sim d)) = Z.odd (Z.of_nat n)
              /\ resetn (sim_steps cfg n (initial_sim d))
                 = (42 <=? Z.of_nat n)
              /\ (Z.of_nat n <= 42 ->
                  t (sim_steps cfg n (initial_sim d)) = 5 * Z.of_nat n)
              /\ top (sim_steps cfg n (initial_sim d)) = driven n d).
  { induction n as [|k IH].
    - repeat split.
    - rewrite sim_steps_S. destruct IH as (Hclk & Hrst & Ht & Htop).
      set (st := sim_steps cfg k (initial_sim d)) in *.
      assert (Hclk' : negb (clk st) = Z.odd (Z.of_nat (S k))).
      { rewrite Hclk, Nat2Z.inj_succ, Z.odd_succ, Z.negb_odd. reflexivity. }
      assert (Hrst' : (if 200 <? t st then true else resetn st)
                      = (42 <=? Z.of_nat (S k))).
      { rewrite Hrst. destruct (Z.leb_spec 42 (Z.of_nat k)).
        - destruct (200 <? t st); destruct (Z.leb_spec 42 (Z.of_nat (S k)));
            try reflexivity; lia.
        - rewrite Ht by lia.
          destruct (Z.ltb_spec 200 (5 * Z.of_nat k));
            destruct (Z.leb_spec 42 (Z.of_nat (S k)));
            try reflexivity; lia. }
      unfold sim_step. cbn [clk resetn t top].
      rewrite Hclk', Hrst'. split; [reflexivity|]. split; [reflexivity|].
      split.
      + intros Hle. rewrite Ht by lia. rewrite s32_small by lia. lia.
      + rewrite Htop. reflexivity. }
  destruct H as (Hclk & Hrst & _ & Htop). auto.
Qed.

(** X17.  With the waveform switched on, every iteration dumps once, at
    the time it starts with: after [n] iterations the dump times are 0,
    5, ..., [5 (n - 1)], for [n] up to 429496730, the last iteration
    before the time counter leaves the range of [int]. *)
Theorem vcd_dump_times cfg d n :
  cfg_vcd cfg = true -> Z.of_nat n <= 429496730 ->
  vcd_file (sim_steps cfg n (initial_sim d))
  = map (fun k => 5 * Z.of_nat k) (seq 0 n).
Proof.
  intros Hv. induction n as [|k IH]; intros Hn; [reflexivity|].
  rewrite sim_steps_S, seq_S, map_app. cbn [map Nat.add].
  rewrite <- IH by lia.
  unfold sim_step at 1. cbn [vcd_file]. rewrite Hv.
  rewrite time_closed by lia. reflexivity.
Qed.

(** X18.  The two numbers of the summary are tied together.  For a
    budget [T] up to 214748344 the loop ends with the time a
    non-negative value of at most [10 T + 205] and the cycle count
    equal to [(time - 205) / 10], or 0 while the time is below 205; the
    run is a timeout exactly when the time is [10 T + 205]. *)
Theorem reported_time cfg d :
  0 < cfg_timeout cfg <= 214748344 ->
  exists st,
    sim_loop cfg (loop_bound (cfg_timeout cfg)) (initial_sim d) = Some st
    /\ 0 <= t st <= 10 * cfg_timeout cfg + 205
    /\ cycle st = Z.max 0 ((t st - 205) / 10)
    /\ (status cfg st = TIMEOUT <-> t st = 10 * cfg_timeout cfg + 205).
Proof.
  intros HT.
  destruct (sim_loop_terminates cfg d) as (n & st & Hn & -> & Hloop & Hle);
    [unfold INT_MAX; lia|].
  exists (sim_steps cfg n (initial_sim d)). split; [exact Hloop|].
  destruct (sim_steps_closed cfg d n) as (_ & _ & _ & Hc);
    [unfold INT_MAX; lia|].
  pose proof (time_closed cfg d n ltac:(lia)) as Ht.
  rewrite Hc, Ht. unfold status, timed_out. rewrite Hc.
  split; [lia|]. split; [clear - HT Hn; div_lia|].
  destruct (Z.leb_spec (cfg_timeout cfg)
              (Z.max 0 ((Z.of_nat n - 41) / 2))) as [Hge|Hlt].
  - split; [|reflexivity]. intros _. clear - HT Hn Hge. div_lia.
  - split; [discriminate|]. intros Heq. exfalso. clear - HT Hn Hlt Heq.
    div_lia.
Qed.

Lemma progress_step cfg st :
  progress (sim_step cfg st)
  = if active_edge (sim_step cfg st) && cfg_verbose cfg
       && (Z.rem (cycle (sim_step cfg st)) 10000 =? 0)
    then progress st ++ [cycle (sim_step cfg st)]
    else progress st.
Proof. reflexivity. Qed.

(** X19.  In verbose mode the cycle counts printed are the multiples of
    10000 reached so far, each once and in order: after [n] iterations
    with the cycle count at [c] they are 10000, 20000, ..., up to
    [10000 * (c / 10000)]. *)
Theorem verbose_progress cfg d n :
  cfg_verbose cfg = true -> Z.of_nat n <= 2 * INT_MAX + 41 ->
  progress (sim_steps cfg n (initial_sim d))
  = map (fun i => 10000 * Z.of_nat i)
        (seq 1 (Z.to_nat (cycle (sim_steps cfg n (initial_sim d)) / 10000))).
Proof.
  intros Hv. induction n as [|k IH]; intros Hn; [reflexivity|].
  destruct (sim_steps_closed cfg d (S k) Hn) as (Hclk & Hrst & _ & Hcyc).
  destruct (sim_steps_closed cfg d k ltac:(lia)) as (_ & _ & _ & Hcyc0).
  rewrite Hcyc. rewrite Hcyc0 in IH.
  rewrite sim_steps_S, progress_step, <- sim_steps_S.
  unfold active_edge. rewrite Hclk, Hrst, Hcyc, Hv, IH by lia.
  unfold INT_MAX in Hn.
  set (c0 := Z.max 0 ((Z.of_nat k - 41) / 2)).
  set (c1 := Z.max 0 ((Z.of_nat (S k) - 41) / 2)).
  assert (Hc0 : 0 <= c0) by (subst c0; lia).
  assert (Hstep : c1 = if Z.odd (Z.of_nat (S k)) && (42 <=? Z.of_nat (S k))
                       then c0 + 1 else c0).
  { subst c0 c1. destruct (Z.odd (Z.of_nat (S k))) eqn:Hodd.
    - apply Z.odd_spec in Hodd as [m Hm].
      destruct (Z.leb_spec 42 (Z.of_nat (S k))); cbn [andb];
        clear - Hm H; div_lia.
    - rewrite <- Z.negb_even in Hodd. apply negb_false_iff in Hodd.
      apply Z.even_spec in Hodd as [m Hm]. cbn [andb]. clear - Hm. div_lia. }
  destruct (Z.odd (Z.of_nat (S k)) && (42 <=? Z.of_nat (S k)));
    cbn [andb]; [|rewrite Hstep; reflexivity].
  rewrite Z.rem_mod_nonneg by lia.
  destruct (Z.eqb_spec (c1 mod 10000) 0) as [Hmul|Hnot].
  - replace (Z.to_nat (c1 / 10000)) with (S (Z.to_nat (c0 / 10000)))
      by (clear - Hc0 Hstep Hmul; div_lia).
    rewrite seq_S, map_app. cbn [map]. f_equal. f_equal.
    clear - Hc0 Hstep Hmul. div_lia.
  - replace (c1 / 10000) with (c0 / 10000)
      by (clear - Hc0 Hstep Hnot; div_lia).
    reflexivity.
Qed.

End Stimulus.

Example stimulus_of_the_first_43_evaluations :
  let D := counting_dut None 0 in
  map (fun n => (clk (sim_steps (mkConfig 9 false false false) n
                        (@initial_sim D O)),
                 resetn (sim_steps (mkConfig 9 false false false) n
                           (@initial_sim D O))))
      [1; 2; 41; 42; 43]%nat
  = [(true, false); (false, false); (true, false); (false, true);
     (true, true)].
Proof. reflexivity. Qed.

Lemma vcd_dump_times_witness :
  let D := counting_dut None 0 in
  vcd_file (sim_steps (mkConfig 9 true false false) 4 (@initial_sim D O))
  = map (fun k => 5 * Z.of_nat k) (seq 0 4).
Proof.
  apply (@vcd_dump_times (counting_dut None 0)
           (mkConfig 9 true false false) O 4%nat); [reflexivity|].
  simpl. lia.
Defined.

Lemma reported_time_witness :
  let D := counting_dut (Some 47%nat) 0 in
  let cfg := mkConfig 9 false false false in
  exists st,
    sim_loop cfg (loop_bound (cfg_timeout cfg)) (@initial_sim D O) = Some st
    /\ 0 <= t st <= 10 * cfg_timeout cfg + 205
    /\ cycle st = Z.max 0 ((t st - 205) / 10)
    /\ (status cfg st = TIMEOUT <-> t st = 10 * cfg_timeout cfg + 205).
Proof.
  apply (@reported_time (counting_dut (Some 47%nat) 0)
           (mkConfig 9 false false false) O).
  simpl. lia.
Defined.

Lemma verbose_progress_witness :
  let D := counting_dut None 0 in
  let cfg := mkConfig 30000 false false true in
  let n := Z.to_nat 40041 in
  progress (sim_steps cfg n (@initial_sim D O))
  = map (fun i => 10000 * Z.of_nat i)
        (seq 1 (Z.to_nat (cycle (sim_steps cfg n (@initial_sim D O))
                          / 10000))).
Proof.
  apply (@verbose_progress (counting_dut None 0)
           (mkConfig 30000 false false true) O (Z.to_nat 40041));
    [reflexivity|].
  unfold INT_MAX. rewrite Z2Nat.id; lia.
Defined.

Example progress_after_twenty_thousand_cycles :
  let D := counting_dut None 0 in
  progress (sim_steps (mkConfig 30000 false false true) (Z.to_nat 40041)
              (@initial_sim D O))
  = [10000; 20000].
Proof. vm_compute. reflexivity. Qed.

(** ** The run as a whole *)

Section MainFacts.
Context {D : Dut}.

(** X13.  What an exit code of [main] tells.  The loop of [main] always
    ends.  Code 0 means that help was asked for, or that the device
    raised the finish flag with the cycle count below the budget; code 1
    means that the run ended at the arguments or at the loader, before
    the first clock edge; code 2 means that the simulation ran until the
    cycle count was equal to the budget. *)
Theorem main_exit_codes argv env :
  main argv env <> MainRunning
  /\ (exit_code (main argv env) = Some 0 ->
      main argv env = MainUsage
      \/ exists cfg st,
           main argv env = MainRan cfg st
           /\ gotFinish (top st) = true /\ cycle st < cfg_timeout cfg)
  /\ (exit_code (main argv env) = Some 1 ->
      (exists e, main argv env = MainArgError e)
      \/ exists log, main argv env = MainLoadFailed log)
  /\ (exit_code (main argv env) = Some 2 ->
      exists cfg st,
        main argv env = MainRan cfg st /\ cycle st = cfg_timeout cfg).
Proof.
  assert (Hother : forall r,
            r <> MainRunning -> (forall cfg st, r <> MainRan cfg st) ->
            r <> MainRunning
            /\ (exit_code r = Some 0 ->
                r = MainUsage
                \/ exists cfg st,
                     r = MainRan cfg st
                     /\ gotFinish (top st) = true
                     /\ cycle st < cfg_timeout cfg)
            /\ (exit_code r = Some 1 ->
                (exists e, r = MainArgError e)
                \/ exists log, r = MainLoadFailed log)
            /\ (exit_code r = Some 2 ->
                exists cfg st,
                  r = MainRan cfg st /\ cycle st = cfg_timeout cfg)).
  { intros r Hr Hran. split; [exact Hr|].
    destruct r as [|e|log|cfg st| |]; simpl;
      try (destruct (Hran cfg st); reflexivity);
      try (destruct Hr; reflexivity);
      (split; [|split]); intros H; try discriminate H; eauto. }
  unfold main.
  destruct (parse_args (tail argv) initial_args) as [a| | |] eqn:Hargs;
    try (apply Hother; discriminate).
  destruct (elf_file a) as [path|]; [|apply Hother; discriminate].
  destruct (load (env_file env path) (dut_memory dut_new))
    as [[|] log mem|]; try (apply Hother; discriminate).
  assert (HT : 0 < timeout_cycles a <= INT_MAX).
  { apply (parse_args_timeout _ _ _ Hargs). unfold INT_MAX. simpl. lia. }
  set (cfg := mkConfig _ _ _ _).
  destruct (@sim_loop_terminates D cfg (dut_set_memory mem dut_new) HT)
    as (n & st & _ & _ & Hloop & Hle).
  change (cfg_timeout cfg) with (timeout_cycles a) in Hloop.
  rewrite Hloop.
  pose proof (sim_loop_stopped _ _ _ _ Hloop) as Hstop.
  unfold running in Hstop. cbn [exit_code]. unfold run_exit_code, timed_out.
  split; [discriminate|].
  destruct (Z.leb_spec (cfg_timeout cfg) (cycle st)) as [Hge|Hlt].
  - split; [discriminate|]. split; [discriminate|].
    intros _. exists cfg, st. split; [reflexivity|]. lia.
  - split; [|split; discriminate].
    intros _. right. exists cfg, st. split; [reflexivity|].
    split; [|exact Hlt].
    destruct (Z.ltb_spec (cycle st) (cfg_timeout cfg)); [|lia].
    rewrite andb_true_r in Hstop. apply negb_false_iff in Hstop. exact Hstop.
Qed.

(** X14.  A trace file that cannot be opened is no error: the run goes
    on without a trace.  With the same arguments and the same files,
    [main] returns the same exit code whether or not the trace file
    opens, and where it cannot be opened and the simulation runs, no
    record is written and clock, reset, time, cycle count and device end
    as they do in the run with the trace file. *)
Theorem trace_open_failure_is_silent argv files :
  exit_code (main argv (mkEnv files false))
  = exit_code (main argv (mkEnv files true))
  /\ (forall cfg st,
        main argv (mkEnv files false) = MainRan cfg st ->
        cfg_trace cfg = false /\ trace_file st = []
        /\ exists cfg1 st1,
             main argv (mkEnv files true) = MainRan cfg1 st1
             /\ core st1 = core st).
Proof.
  unfold main. cbn [env_file env_trace_fopen].
  destruct (parse_args (tail argv) initial_args) as [a| | |];
    try (split; [reflexivity|discriminate]).
  destruct (elf_file a) as [path|]; [|split; [reflexivity|discriminate]].
  destruct (load (files path) (dut_memory dut_new)) as [[|] log mem|];
    try (split; [reflexivity|discriminate]).
  rewrite andb_false_r, andb_true_r.
  set (cfg0 := mkConfig _ _ false _). set (cfg1 := mkConfig _ _ _ _).
  set (st0 := initial_sim _).
  pose proof (sim_loop_core cfg0 cfg1 (loop_bound (timeout_cycles a))
                st0 st0 eq_refl eq_refl) as Hcore.
  destruct (sim_loop cfg0 _ st0) as [r0|] eqn:H0,
           (sim_loop cfg1 _ st0) as [r1|] eqn:H1; simpl in Hcore;
    try discriminate; [|split; [reflexivity|discriminate]].
  apply (inj Some) in Hcore. split.
  - cbn [exit_code]. f_equal.
    apply (exit_code_core cfg0 cfg1 r0 r1); [reflexivity|exact Hcore].
  - intros cfg st [= <- <-]. split; [reflexivity|]. split.
    + apply (sim_loop_trace_off _ _ _ _ H0). reflexivity.
    + exists cfg1, r1. split; [reflexivity|]. symmetry. exact Hcore.
Qed.

End MainFacts.

Example trace_open_failure_runs :
  let D := counting_dut (Some 51%nat) 0x8000abcde in
  match main ["testbench"; "+trace"; "--timeout=20"; "sample.elf"]%string
             (mkEnv (fun _ => Some (sample_image EM_RISCV)) false) with
  | MainRan cfg st =>
      cfg = mkConfig 20 false false false
      /\ cycle st = 5 /\ t st = 255 /\ trace_file st = []
      /\ exit_code (MainRan cfg st) = Some 0
  | _ => False
  end.
Proof. vm_compute. repeat split. Qed.
